(** * Graph rewriting utilities of [onnxruntime_extensions/pnp/_utils.py]

    A shallow embedding of [ONNXModelUtils]: prefix renaming, unfolding of
    model nodes, topological sorting, removal of unused initializers and the
    joining of models, followed by the properties that the design document
    states about them.

    Protobuf messages are records, Python dictionaries are [gmap]s (or
    association lists where the iteration order is observable), Python sets
    are [gset]s, raised exceptions are values of [exn] carried by [result],
    and in-place mutation is explicit state passing. *)

From Stdlib Require Import Ascii.
From stdpp Require Import gmap strings list fin_maps pretty relations.

Set Warnings "-clear-no-such-hyp".

Open Scope string_scope.
Open Scope list_scope.

(** ** Exceptions *)

Inductive exn :=
  | RuntimeError (msg : string)
  | KeyError (key : string)
  | AssertionError (msg : string)
  | IndexError
  | RecursionError.

Inductive result (A : Type) :=
  | Ok (a : A)
  | Raise (e : exn).
Arguments Ok {A} a.
Arguments Raise {A} e.

#[global] Instance result_ret : MRet result := fun A a => Ok a.
#[global] Instance result_bind : MBind result := fun A B k m =>
  match m with
  | Ok a => k a
  | Raise e => Raise e
  end.

(** A [for] loop whose body may raise. *)
Fixpoint for_each {A S} (body : S -> A -> result S) (l : list A) (s : S)
  : result S :=
  match l with
  | [] => Ok s
  | a :: l' => s' ← body s a; for_each body l' s'
  end.

(** ** Protobuf messages *)

Record TensorProto := mkTensor {
  t_name : string;
  t_data : list Z }.

Record ValueInfoProto := mkValueInfo {
  vi_name : string;
  vi_type : string }.

Record OperatorSetIdProto := mkOpset {
  domain : string;
  version : Z }.

(** An attribute always carries a [g] field, as protobuf messages do; [a_graph]
    records whether the attribute's value is that graph. *)
Inductive Node := mkNode {
  n_name : string;
  n_op_type : string;
  n_input : list string;
  n_output : list string;
  n_attribute : list Attribute }
with Attribute := mkAttr {
  a_name : string;
  a_graph : bool;
  a_payload : list Z;
  a_g : Graph }
with Graph := mkGraph {
  g_node : list Node;
  g_name : string;
  g_input : list ValueInfoProto;
  g_output : list ValueInfoProto;
  g_initializer : list TensorProto;
  g_value_info : list ValueInfoProto }.

Record Model := mkModel {
  graph : Graph;
  opset_import : list OperatorSetIdProto }.

(** Everything [_rename_iter] is applied to has a [name] attribute. *)
Class Named (A : Type) := {
  get_name : A -> string;
  set_name : string -> A -> A }.

#[global] Instance tensor_named : Named TensorProto := {|
  get_name := t_name;
  set_name := fun nm t => {| t_name := nm; t_data := t_data t |} |}.

#[global] Instance value_info_named : Named ValueInfoProto := {|
  get_name := vi_name;
  set_name := fun nm v => {| vi_name := nm; vi_type := vi_type v |} |}.

(** Python truthiness of a string. *)
Definition truthy (s : string) : bool :=
  match s with
  | EmptyString => false
  | String _ _ => true
  end.

(** ** Identifier renaming *)

Definition merge_name (prefix name : string) : string :=
  prefix +:+ "_" +:+ name.

(** [_rename_iter] returns the renamed list; the first component is what the
    caller's [iterables] holds afterwards: the renamed objects when
    [inplace], the untouched originals otherwise (the copies are deep). *)
Definition _rename_iter {A} `{Named A} (iterables : list A)
    (prefix_name : string) (inplace : bool) : list A * list A :=
  let new_iz :=
    (fun iz_ => set_name (merge_name prefix_name (get_name iz_)) iz_)
      <$> iterables in
  (if inplace then new_iz else iterables, new_iz).

(** The two attributes of [graph_or_container] that [_rename_graph] extends;
    [join_models] builds exactly this named tuple. *)
Record Pools := mkPools {
  initializer : list TensorProto;
  value_info : list ValueInfoProto }.

Definition io_rename (node : Node) (prefix_name : string) (idx : nat) : Node :=
  {| n_name :=
       if truthy (n_name node)
       then merge_name prefix_name (n_name node)
       else merge_name prefix_name ("op" +:+ pretty idx);
     n_op_type := n_op_type node;
     n_input :=
       (fun nm_ => if truthy nm_ then merge_name prefix_name nm_ else "")
         <$> n_input node;
     n_output :=
       (fun nm_ => if truthy nm_ then merge_name prefix_name nm_ else "")
         <$> n_output node;
     n_attribute := n_attribute node |}.

(** The prefix is a string here, so the [assert prefix is not None] of the
    source cannot fail. The first component is [graph_or_container] after
    the two [extend] calls. *)
Definition _rename_graph (graph : Graph) (prefix : string)
    (graph_or_container : Pools) : Pools * list Node :=
  let gc1 :=
    {| initializer := initializer graph_or_container ++
                      (_rename_iter (g_initializer graph) prefix false).2;
       value_info := value_info graph_or_container |} in
  let gc2 :=
    {| initializer := initializer gc1;
       value_info := value_info gc1 ++
                     (_rename_iter (g_value_info graph) prefix false).2 |} in
  (gc2, imap (fun idx_ nd_ => io_rename nd_ prefix idx_) (g_node graph)).

(** ** Unfolding of model nodes *)

(** [_process_attr]: a [body] attribute is copied, the copy's [value_info]
    and [node] lists are emptied, [_rename_graph] reads the original
    subgraph while extending the copy, and the copy's declared inputs and
    outputs are renamed in place. *)
Definition _process_attr (attr : Attribute) (prefix_name : string) : Attribute :=
  if decide (a_name attr = "body") then
    let new_g := a_g attr in
    let cleared := {| initializer := g_initializer new_g; value_info := [] |} in
    let '(gc, renamed) := _rename_graph (a_g attr) prefix_name cleared in
    {| a_name := a_name attr;
       a_graph := a_graph attr;
       a_payload := a_payload attr;
       a_g := {| g_node := renamed;
                 g_name := g_name new_g;
                 g_input := (_rename_iter (g_input new_g) prefix_name true).1;
                 g_output := (_rename_iter (g_output new_g) prefix_name true).1;
                 g_initializer := initializer gc;
                 g_value_info := value_info gc |} |}
  else attr.

Definition _process_node_body (node : Node) (prefix : string) : Node :=
  if forallb (fun attr => bool_decide (a_name attr <> "body")) (n_attribute node)
  then node
  else
    let attr_list := (fun attr_ => _process_attr attr_ prefix) <$> n_attribute node in
    {| n_name := n_name node;
       n_op_type := n_op_type node;
       n_input := n_input node;
       n_output := n_output node;
       n_attribute := attr_list |}.

(** The members of [container.nodes]: ONNX nodes, and the objects with a
    [model] attribute that stand for a whole embedded model. *)
Inductive ContainerNode :=
  | OnnxNode (nd : Node)
  | ModelNode (name : string) (model : Model).

Definition cn_name (cn : ContainerNode) : string :=
  match cn with
  | OnnxNode nd => n_name nd
  | ModelNode name _ => name
  end.

Definition has_model (cn : ContainerNode) : bool :=
  match cn with
  | OnnxNode _ => false
  | ModelNode _ _ => true
  end.

(** The attributes of a container that the source reads or writes. *)
#[warnings="-register-all"]
Inductive Container := mkContainer {
  parent : option Container;
  nodes : list ContainerNode;
  c_initializer : list TensorProto;
  c_value_info : list ValueInfoProto;
  initializers : list TensorProto;
  node_domain_version_pair_sets : gset (string * Z) }.

(** An insertion-ordered dictionary: assigning to a key that is present
    keeps its position. *)
Fixpoint dict_set {V} (k : string) (v : V) (d : list (string * V))
  : list (string * V) :=
  match d with
  | [] => [(k, v)]
  | (k', v') :: d' =>
      if decide (k' = k) then (k, v) :: d' else (k', v') :: dict_set k v d'
  end.

Definition dict_keys {V} (d : list (string * V)) : list string := fst <$> d.

(** The [while] loop that walks to the outermost container, followed by a
    write to it. *)
Fixpoint update_top (f : Container -> Container) (c : Container) : Container :=
  match c with
  | mkContainer None _ _ _ _ _ => f c
  | mkContainer (Some p) ns i v is_ s =>
      mkContainer (Some (update_top f p)) ns i v is_ s
  end.

Definition add_pairs (ps : list (string * Z)) (c : Container) : Container :=
  {| parent := parent c;
     nodes := nodes c;
     c_initializer := c_initializer c;
     c_value_info := c_value_info c;
     initializers := initializers c;
     node_domain_version_pair_sets :=
       node_domain_version_pair_sets c ∪ list_to_set ps |}.

Definition set_pools (gc : Pools) (c : Container) : Container :=
  {| parent := parent c;
     nodes := nodes c;
     c_initializer := initializer gc;
     c_value_info := value_info gc;
     initializers := initializers c;
     node_domain_version_pair_sets := node_domain_version_pair_sets c |}.

Definition model_nodes_of (nodes : list ContainerNode)
  : list (string * Model) :=
  foldl (fun d cn =>
           match cn with
           | ModelNode name model => dict_set name model d
           | OnnxNode _ => d
           end) [] nodes.

(** One iteration of the loop over [model_nodes.values()]. *)
Definition unfold_one (st : Container * list ContainerNode)
    (node : string * Model) : Container * list ContainerNode :=
  let '(container, onnx_nodes) := st in
  let '(gc, renamed_nodes) :=
    _rename_graph (graph node.2) node.1
      {| initializer := c_initializer container;
         value_info := c_value_info container |} in
  let onnx_nodes' : list ContainerNode :=
    onnx_nodes ++
    ((fun nd_ => OnnxNode (_process_node_body nd_ node.1)) <$> renamed_nodes) in
  let container' :=
    update_top
      (add_pairs ((fun opset_ => (domain opset_, version opset_))
                    <$> opset_import node.2))
      (set_pools gc container) in
  (container', onnx_nodes').

(** Returns the container as the call leaves it, and [onnx_nodes]. *)
Definition unfold_model_node (container : Container)
  : Container * list ContainerNode :=
  let nodes := nodes container in
  let model_nodes := model_nodes_of nodes in
  let onnx_nodes :=
    filter (fun nd_ => cn_name nd_ ∉ dict_keys model_nodes) nodes in
  foldl unfold_one (container, onnx_nodes) model_nodes.

(** The nodes that one model node contributes to the result. *)
Definition expansion (node : string * Model) : list ContainerNode :=
  (fun nd_ => OnnxNode (_process_node_body nd_ node.1))
    <$> (_rename_graph (graph node.2) node.1
           {| initializer := []; value_info := [] |}).2.

(** ** Topological sort *)

Record DynNode := mkDynNode {
  dn_name : string;
  dn_output : list string }.

(** What the traversal handles: the one [DynNode] placeholder, or a node. *)
Inductive vertex :=
  | Dyn (d : DynNode)
  | Op (nd : Node).

Definition v_name (v : vertex) : string :=
  match v with
  | Dyn d => dn_name d
  | Op nd => n_name nd
  end.

Definition v_output (v : vertex) : list string :=
  match v with
  | Dyn d => dn_output d
  | Op nd => n_output nd
  end.

Record dfs_state := mkState {
  visited : gset string;
  sorted_nodes : list Node;
  unfinished_nodes : gset string }.

Definition cycle_msg (name : string) : string :=
  "ONNX Graph is not a DAG, the cycle is found at " +:+ name.

Definition dangling_msg (name x : string) : string :=
  name +:+ ": cannot find an operator to produce the tensor: " +:+ x.

Definition unique_name_msg : string :=
  "this topological-sort depends on the unique node name.".

(** The nested function of [topological_sort]. [fuel] is the number of
    nested calls still allowed, and [RecursionError] marks its exhaustion, as
    the interpreter raises it when its recursion limit is reached. Only the
    placeholder is a [Dyn] vertex, so the identity test
    [node is not input_nodes[0]] is the match on the constructor. *)
Fixpoint recursive_helper (fuel : nat) (edges : gmap string (list Node))
    (node : vertex) (st : dfs_state) : result dfs_state :=
  match fuel with
  | O => Raise RecursionError
  | S fuel' =>
      if decide (v_name node ∈ visited st) then Ok st
      else if decide (v_name node ∈ unfinished_nodes st)
      then Raise (RuntimeError (cycle_msg (v_name node)))
      else
        let st1 := {| visited := visited st;
                      sorted_nodes := sorted_nodes st;
                      unfinished_nodes := unfinished_nodes st ∪ {[v_name node]} |} in
        st2 ← match edges !! v_name node with
              | Some successors =>
                  if decide (v_name node = "")
                  then Raise (AssertionError unique_name_msg)
                  else for_each
                         (fun s successor =>
                            recursive_helper fuel' edges (Op successor) s)
                         successors st1
              | None => Ok st1
              end;
        if decide (v_name node ∈ unfinished_nodes st2) then
          Ok {| visited := visited st2 ∪ {[v_name node]};
                sorted_nodes := match node with
                                | Dyn _ => sorted_nodes st2
                                | Op nd => nd :: sorted_nodes st2
                                end;
                unfinished_nodes := unfinished_nodes st2 ∖ {[v_name node]} |}
        else Raise (KeyError (v_name node))
  end.

Definition placeholder (container : Container) (inputs : list ValueInfoProto)
  : DynNode :=
  {| dn_name := "placeholder";
     dn_output := (vi_name <$> inputs) ++ (t_name <$> initializers container) |}.

Definition input_nodes (container : Container) (nodes : list Node)
    (inputs : list ValueInfoProto) : list vertex :=
  Dyn (placeholder container inputs)
  :: (Op <$> filter (fun nd_ => n_op_type nd_ = "Constant") nodes).

Definition op_output_map (container : Container) (nodes : list Node)
    (inputs : list ValueInfoProto) : gmap string vertex :=
  foldl (fun m nd_ => foldl (fun m ky_ => <[ky_ := nd_]> m) m (v_output nd_))
        ∅ ((Op <$> nodes) ++ input_nodes container nodes inputs).

(** The body of the loop over [op.input]. *)
Definition add_edge (producers : gmap string vertex) (op : Node)
    (edges : gmap string (list Node)) (x : string)
  : result (gmap string (list Node)) :=
  if decide (x = "") then Ok edges
  else match producers !! x with
       | None => Raise (RuntimeError (dangling_msg (n_name op) x))
       | Some predecessor =>
           let val := default [] (edges !! v_name predecessor) in
           Ok (<[v_name predecessor := val ++ [op]]> edges)
       end.

Definition build_edges (producers : gmap string vertex) (nodes : list Node)
  : result (gmap string (list Node)) :=
  for_each (fun edges op => for_each (add_edge producers op) (n_input op) edges)
           nodes ∅.

(** The loop over the declared outputs; the dictionary lookup is not
    guarded in the source. *)
Definition add_output (producers : gmap string vertex)
    (edges : gmap string (list Node)) (y_ : ValueInfoProto)
  : result (gmap string (list Node)) :=
  match producers !! vi_name y_ with
  | None => Raise (KeyError (vi_name y_))
  | Some p =>
      Ok (match edges !! v_name p with
          | Some _ => edges
          | None => <[v_name p := []]> edges
          end)
  end.

Definition all_edges (container : Container) (nodes : list Node)
    (inputs outputs : list ValueInfoProto) : result (gmap string (list Node)) :=
  let producers := op_output_map container nodes inputs in
  edges ← build_edges producers nodes;
  for_each (add_output producers) outputs edges.

Definition initial_state : dfs_state :=
  {| visited := ∅; sorted_nodes := []; unfinished_nodes := ∅ |}.

(** The depth allowed to the traversal. No chain of nested calls is longer
    than the number of distinct vertex names plus one
    (see [recursive_helper_fuel]), so this depth is never exceeded. The
    interpreter's own recursion limit is a fixed number of frames and is not
    modelled: on a dependency chain longer than that limit the source raises
    [RecursionError] where this definition goes on. What is proved of
    [topological_sort] below describes the source on graphs whose
    dependency chains fit within the interpreter's limit. *)
Definition enough_fuel (nodes : list Node) : nat := S (S (length nodes)).

Definition topological_sort (container : Container) (nodes : list Node)
    (inputs outputs : list ValueInfoProto) : result (list Node) :=
  edges ← all_edges container nodes inputs outputs;
  st ← for_each (fun st nd_ => recursive_helper (enough_fuel nodes) edges nd_ st)
                (input_nodes container nodes inputs) initial_state;
  Ok (sorted_nodes st).

(** The tensor names that the graph itself supplies, and what it means for
    a tensor name to have a producer. *)
Definition external_names (container : Container) (inputs : list ValueInfoProto)
  : list string :=
  (vi_name <$> inputs) ++ (t_name <$> initializers container).

Definition has_producer (container : Container) (nodes : list Node)
    (inputs : list ValueInfoProto) (x : string) : Prop :=
  x ∈ external_names container inputs \/
  exists nd_, nd_ ∈ nodes /\ x ∈ n_output nd_.

(** Data dependency between two nodes of the list: the first writes a
    non-empty tensor name that the second reads. *)
Definition dep (nodes : list Node) (a b : Node) : Prop :=
  a ∈ nodes /\ b ∈ nodes /\
  exists x, x <> "" /\ x ∈ n_output a /\ x ∈ n_input b.

Definition acyclic (nodes : list Node) : Prop :=
  forall a, ~ tc (dep nodes) a a.

(** The nodes at which the traversal can enter the graph: [Constant] nodes,
    and the nodes that read a declared input or an initializer. *)
Definition entry (container : Container) (inputs : list ValueInfoProto)
    (r : Node) : Prop :=
  n_op_type r = "Constant" \/
  exists x, x <> "" /\ x ∈ n_input r /\ x ∈ external_names container inputs.

Definition all_fed (container : Container) (nodes : list Node)
    (inputs : list ValueInfoProto) : Prop :=
  forall nd_, nd_ ∈ nodes ->
    exists r, r ∈ nodes /\ entry container inputs r /\ rtc (dep nodes) r nd_.

(** The graph invariants the sort relies on: node names are unique,
    non-empty and not the placeholder's; every non-empty input and every
    declared output has a producer; a non-empty tensor name is written by
    one node only and is not also supplied by the graph. *)
Record well_formed (container : Container) (nodes : list Node)
    (inputs outputs : list ValueInfoProto) : Prop := {
  wf_names : NoDup (n_name <$> nodes);
  wf_named : forall nd_, nd_ ∈ nodes ->
               n_name nd_ <> "" /\ n_name nd_ <> "placeholder";
  wf_inputs : forall nd_ x, nd_ ∈ nodes -> x ∈ n_input nd_ -> x <> "" ->
                has_producer container nodes inputs x;
  wf_outputs : forall y_, y_ ∈ outputs ->
                 has_producer container nodes inputs (vi_name y_);
  wf_single : forall a b x, a ∈ nodes -> b ∈ nodes -> x <> "" ->
                x ∈ n_output a -> x ∈ n_output b -> a = b;
  wf_fresh : forall a x, a ∈ nodes -> x <> "" -> x ∈ n_output a ->
               x ∉ external_names container inputs }.

(** The successor lists of the [edges] dictionary, read as a relation on
    vertex names. *)
Definition successors_of (edges : gmap string (list Node)) (u : string)
  : list Node :=
  default [] (edges !! u).

Definition edge (edges : gmap string (list Node)) (u w : string) : Prop :=
  exists s, s ∈ successors_of edges u /\ n_name s = w.

(** What the traversal keeps true of [visited] and [sorted_nodes] between
    calls. *)
Record dfs_inv (edges : gmap string (list Node)) (nodes : list Node)
    (st : dfs_state) : Prop := {
  inv_sorted : forall n, n ∈ sorted_nodes st ->
                 n ∈ nodes /\ n_name n ∈ visited st;
  inv_nodup : NoDup (sorted_nodes st);
  inv_ordered : forall l1 a l2, sorted_nodes st = l1 ++ a :: l2 ->
                  forall s, s ∈ successors_of edges (n_name a) -> s ∈ l2;
  inv_closed : forall u s, u ∈ visited st -> s ∈ successors_of edges u ->
                 n_name s ∈ visited st;
  inv_visited : forall n, n ∈ nodes -> n_name n ∈ visited st ->
                  n ∈ sorted_nodes st }.

(** What one call of [recursive_helper] on the vertex named [v] achieves. *)
Definition post (edges : gmap string (list Node)) (nodes : list Node)
    (v : string) (st st' : dfs_state) : Prop :=
  unfinished_nodes st' = unfinished_nodes st /\
  dfs_inv edges nodes st' /\
  visited st ⊆ visited st' /\
  (forall u, u ∈ visited st' -> u ∈ visited st \/ rtc (edge edges) v u).

(** The producer of the non-empty tensor [x] is called [u]; [u] is the name
    of some producer. *)
Definition feeds (producers : gmap string vertex) (u x : string) : Prop :=
  x <> "" /\ exists p, producers !! x = Some p /\ v_name p = u.

Definition names_producer (producers : gmap string vertex) (u : string) : Prop :=
  exists x p, producers !! x = Some p /\ v_name p = u.

(** A call either returns with [unfinished_nodes] restored to [U], or
    raises something other than [RecursionError]. *)
Definition spares_fuel (r : result dfs_state) (U : gset string) : Prop :=
  match r with
  | Ok st' => unfinished_nodes st' = U
  | Raise e => e <> RecursionError
  end.

(** The vertices the traversal is started on or recurses into. *)
Definition vertex_ok (nodes : list Node) (v : vertex) : Prop :=
  match v with
  | Dyn d => forall n, n ∈ nodes -> n_name n <> dn_name d
  | Op nd_ => nd_ ∈ nodes
  end.

(** ** Removal of unused initializers *)

Definition nodes_input_set (nodes : list Node) : gset string :=
  foldl (fun s nd_ => s ∪ list_to_set (n_input nd_)) ∅ nodes.

Definition _remove_unused_initializers (nodes : list Node)
    (initializers : list TensorProto) (reversed_names : gset string)
  : list TensorProto :=
  filter (fun intlz_ => t_name intlz_ ∈ nodes_input_set nodes
                        \/ t_name intlz_ ∈ reversed_names)
         initializers.

(** ** Joining models *)

Record ModelPort := mkModelPort {
  port_input : list string;
  port_output : list string }.

(** Subscripting a list. *)
Definition item {A} (l : list A) (i : nat) : result A :=
  match l !! i with
  | Some a => Ok a
  | None => Raise IndexError
  end.

(** ["g{}".format(_i + 1)], and the list of these built by the first loop.
    Where a later loop enumerates the models themselves, the subscript into
    [mdl_prefix] is within range and [prefix_of] is written directly
    (see [mdl_prefix_lookup]). *)
Definition prefix_of (_i : nat) : string := "g" +:+ pretty (_i + 1).

Definition mdl_prefix (models : list Model) : list string :=
  prefix_of <$> seq 0 (length models).

Definition ports (models : list Model) : list ModelPort :=
  imap (fun _idx m =>
          let p := prefix_of _idx in
          {| port_input := (fun _x => merge_name p (vi_name _x))
                             <$> g_input (graph m);
             port_output := (fun _y => merge_name p (vi_name _y))
                              <$> g_output (graph m) |})
       models.

(** The default positional wiring of one input of [models[_idx + 1]]. *)
Definition wire_input (models : list Model) (_idx : nat)
    (port_mapping : gmap string string) (ix : nat * ValueInfoProto)
  : result (gmap string string) :=
  p_next ← item (mdl_prefix models) (_idx + 1);
  let iname := merge_name p_next (vi_name ix.2) in
  match port_mapping !! iname with
  | Some _ => Ok port_mapping
  | None =>
      p ← item (mdl_prefix models) _idx;
      m ← item models _idx;
      o ← item (g_output (graph m)) ix.1;
      Ok (<[iname := merge_name p (vi_name o)]> port_mapping)
  end.

Definition wire_models (models : list Model)
    (port_mapping : gmap string string) : result (gmap string string) :=
  for_each (fun pm _idx =>
              m_next ← item models (_idx + 1);
              for_each (wire_input models _idx)
                       (imap pair (g_input (graph m_next))) pm)
           (seq 0 (length models - 1)) port_mapping.

(** The loop that fills the pools and collects the renamed nodes. *)
Definition gather_one (st : Pools * list Node) (im : nat * Model)
  : Pools * list Node :=
  let '(container, nodes) := st in
  let container1 :=
    {| initializer := initializer container ++ g_initializer (graph im.2);
       value_info := value_info container ++ g_value_info (graph im.2) |} in
  let '(container2, renamed) :=
    _rename_graph (graph im.2) (prefix_of im.1) container1 in
  (container2, nodes ++ renamed).

Definition gather (models : list Model) : Pools * list Node :=
  foldl gather_one ({| initializer := []; value_info := [] |}, [])
        (imap pair models).

(** The rewrite of one node's inputs through the port mapping. *)
Definition rewire (port_mapping : gmap string string) (_n : Node) : Node :=
  let replaceable :=
    existsb (fun _i => bool_decide (is_Some (port_mapping !! _i))) (n_input _n) in
  if replaceable then
    {| n_name := n_name _n;
       n_op_type := n_op_type _n;
       n_input := (fun _i => default _i (port_mapping !! _i)) <$> n_input _n;
       n_output := n_output _n;
       n_attribute := n_attribute _n |}
  else _n.

Definition joined_name (models : list Model) : string :=
  foldl (fun name _mdl =>
           if truthy name then name +:+ "_" +:+ g_name (graph _mdl)
           else g_name (graph _mdl))
        "" models.

Definition joined_opset (models : list Model) : list OperatorSetIdProto :=
  (foldl (fun acc _mdl =>
            foldl (fun (acc : gset string * list OperatorSetIdProto) _ops =>
                     if decide (domain _ops ∈ acc.1) then acc
                     else (acc.1 ∪ {[domain _ops]}, acc.2 ++ [_ops]))
                  acc (opset_import _mdl))
         (∅, []) models).2.

(** [io_mapping] is [None] or a function from the ports to a dictionary;
    [helper.make_graph] and [helper.make_model] fill the fields of the
    resulting messages. *)
Definition join_models (models : list Model)
    (io_mapping : option (list ModelPort -> gmap string string))
  : result Model :=
  first ← item models 0;
  p_first ← item (mdl_prefix models) 0;
  let inputs := (_rename_iter (g_input (graph first)) p_first false).2 in
  final ← item models (length models - 1);
  p_final ← item (mdl_prefix models) (length (mdl_prefix models) - 1);
  let outputs := (_rename_iter (g_output (graph final)) p_final false).2 in
  let port_mapping0 :=
    match io_mapping with
    | Some f => f (ports models)
    | None => ∅
    end in
  port_mapping ← wire_models models port_mapping0;
  let '(container, nodes0) := gather models in
  let nodes := rewire port_mapping <$> nodes0 in
  let inits := _remove_unused_initializers nodes (initializer container) ∅ in
  Ok {| graph := {| g_node := nodes;
                    g_name := joined_name models;
                    g_input := inputs;
                    g_output := outputs;
                    g_initializer := inits;
                    g_value_info := value_info container |};
        opset_import := joined_opset models |}.

(** ** Further notions used by the properties below *)

(** The character [c] does not occur in [s]. *)
Fixpoint free_of (c : ascii) (s : string) : Prop :=
  match s with
  | EmptyString => True
  | String c' s' => c' <> c /\ free_of c s'
  end.

(** What holds of the traversal state between calls on any graph, well
    formed or not: the sorted nodes are input nodes with distinct, visited
    names, each successor of a sorted node is named further down the list
    (or carries the placeholder's name), and no visited name is unfinished. *)
Record sound_inv (edges : gmap string (list Node)) (nodes : list Node)
    (st : dfs_state) : Prop := {
  si_sorted : forall n, n ∈ sorted_nodes st ->
                n ∈ nodes /\ n_name n ∈ visited st;
  si_nodup : NoDup (n_name <$> sorted_nodes st);
  si_ordered : forall l1 a l2, sorted_nodes st = l1 ++ a :: l2 ->
                 forall s, s ∈ successors_of edges (n_name a) ->
                   n_name s ∈ (n_name <$> l2) \/ n_name s = "placeholder";
  si_visited : forall u, u ∈ visited st ->
                 u ∈ (n_name <$> sorted_nodes st) \/ u = "placeholder";
  si_disjoint : forall u, u ∈ visited st -> u ∉ unfinished_nodes st }.

(** The vertices the traversal meets on any graph. *)
Definition vertex_src (nodes : list Node) (v : vertex) : Prop :=
  match v with
  | Dyn d => dn_name d = "placeholder"
  | Op nd_ => nd_ ∈ nodes
  end.

(** The outermost container, reached by the [while] loop of
    [unfold_model_node]. *)
Fixpoint top_of (c : Container) : Container :=
  match c with
  | mkContainer None _ _ _ _ _ => c
  | mkContainer (Some p) _ _ _ _ _ => top_of p
  end.

(** The [(domain, version)] pairs of one model node. *)
Definition opset_pairs (node : string * Model) : list (string * Z) :=
  (fun opset_ => (domain opset_, version opset_)) <$> opset_import node.2.

(** A port-mapping key written by the default wiring of one of the model
    pairs [js]. *)
Definition wired_key (js : list nat) (key : string) : Prop :=
  exists j name, j ∈ js /\ key = merge_name (prefix_of (j + 1)) name.

(** The edges as the sort records them, on vertex names: some node called
    [w] reads a non-empty tensor whose recorded producer is called [u]. *)
Definition wired (container : Container) (nodes : list Node)
    (inputs : list ValueInfoProto) (u w : string) : Prop :=
  exists b x, b ∈ nodes /\ n_name b = w /\ x ∈ n_input b /\
              feeds (op_output_map container nodes inputs) u x.

(** The opset imports of all models in order, and what it means for an
    entry to be the first of its domain there. *)
Definition all_opsets (models : list Model) : list OperatorSetIdProto :=
  mjoin (opset_import <$> models).

Definition first_seen (all : list OperatorSetIdProto)
    (o : OperatorSetIdProto) : Prop :=
  exists l1 l2, all = l1 ++ o :: l2 /\ domain o ∉ (domain <$> l1).

(** The model node that the [model_nodes] dictionary of [unfold_model_node]
    keeps under [name]: the last one so called in [nodes]. *)
Definition last_model_node (nodes : list ContainerNode) (name : string)
    (model : Model) : Prop :=
  exists l1 l2,
    nodes = l1 ++ ModelNode name model :: l2 /\
    forall model', ModelNode name model' ∉ l2.

(** The names of the model nodes in order, and a list of names cut down to
    the first occurrence of each: the key order of that dictionary. *)
Definition model_node_names (nodes : list ContainerNode) : list string :=
  omap (fun cn => match cn with
                  | ModelNode name _ => Some name
                  | OnnxNode _ => None
                  end) nodes.

Definition first_occurrences (names : list string) : list string :=
  foldl (fun acc name => if decide (name ∈ acc) then acc else acc ++ [name])
        [] names.

(** ** Concrete graphs *)

Definition float_info (name : string) : ValueInfoProto :=
  {| vi_name := name; vi_type := "float" |}.

Definition plain_node (name op_type : string) (input output : list string)
  : Node :=
  {| n_name := name; n_op_type := op_type; n_input := input;
     n_output := output; n_attribute := [] |}.

Definition bare_container (inits : list TensorProto) : Container :=
  {| parent := None; nodes := []; c_initializer := []; c_value_info := [];
     initializers := inits; node_domain_version_pair_sets := ∅ |}.

(** An [If] node whose branch is a graph-valued attribute that is not
    called [body], and a [Loop] node whose [body] is. *)
Definition branch_graph : Graph :=
  {| g_node := [plain_node "inner" "Relu" ["a"] ["b"]];
     g_name := "branch";
     g_input := [float_info "a"];
     g_output := [float_info "b"];
     g_initializer := [{| t_name := "w"; t_data := [1%Z] |}];
     g_value_info := [float_info "v"] |}.

Definition then_branch : Attribute :=
  {| a_name := "then_branch"; a_graph := true; a_payload := [];
     a_g := branch_graph |}.

Definition if_node : Node :=
  {| n_name := "m_cond"; n_op_type := "If"; n_input := ["m_c"];
     n_output := ["m_out"]; n_attribute := [then_branch] |}.



(** A model with one initializer, read by its only node. *)
Definition weight : TensorProto := {| t_name := "w"; t_data := [1%Z] |}.

Definition weighted_model : Model :=
  {| graph := {| g_node := [plain_node "mul" "Mul" ["x"; "w"] ["y"]];
                 g_name := "scale";
                 g_input := [float_info "x"];
                 g_output := [float_info "y"];
                 g_initializer := [weight];
                 g_value_info := [] |};
     opset_import := [{| domain := ""; version := 12%Z |}] |}.

(** A two-node chain listed consumer first, a node that reads nothing and
    writes a declared output, and two nodes that feed each other. *)
Definition chain_A : Node := plain_node "A" "Relu" ["x"] ["a"].
Definition chain_B : Node := plain_node "B" "Relu" ["a"] ["b"].
Definition chain_nodes : list Node := [chain_B; chain_A].

Definition lone_nodes : list Node := [plain_node "noise" "RandomNormal" [] ["y"]].
Definition cycle_A : Node := plain_node "A" "Add" ["b"] ["a"].
Definition cycle_B : Node := plain_node "B" "Add" ["a"] ["b"].
Definition cycle_nodes : list Node := [cycle_A; cycle_B].

(** ** Properties of the renamer *)

Section renamer.
Context (graph : Graph) (prefix : string) (graph_or_container : Pools).

Lemma rename_graph_lookup idx :
  (_rename_graph graph prefix graph_or_container).2 !! idx
  = (fun nd => io_rename nd prefix idx) <$> g_node graph !! idx.
Proof. unfold _rename_graph; simpl. apply list_lookup_imap. Qed.

Lemma rename_graph_length :
  length (_rename_graph graph prefix graph_or_container).2
  = length (g_node graph).
Proof. unfold _rename_graph; simpl. apply length_imap. Qed.
End renamer.

Lemma merge_name_nonempty prefix name : merge_name prefix name <> "".
Proof.
  unfold merge_name. destruct prefix; simpl; discriminate.
Qed.

Lemma truthy_false s : truthy s = false <-> s = "".
Proof. destruct s; simpl; split; congruence. Qed.

Lemma truthy_true s : truthy s = true <-> s <> "".
Proof. destruct s; simpl; split; congruence. Qed.

(** C6. In every renaming pass, under every prefix, an input or output slot
    holding the empty string still holds the empty string in the renamed
    node at the same position, and so is never the string [prefix_]. *)
Theorem C6_empty_slots_stay_empty :
  forall (graph : Graph) (prefix : string) (gc : Pools) (idx : nat) (nd : Node),
    g_node graph !! idx = Some nd ->
    exists nd',
      (_rename_graph graph prefix gc).2 !! idx = Some nd' /\
      (forall k, n_input nd !! k = Some "" ->
                 n_input nd' !! k = Some "" /\
                 n_input nd' !! k <> Some (merge_name prefix "")) /\
      (forall k, n_output nd !! k = Some "" ->
                 n_output nd' !! k = Some "" /\
                 n_output nd' !! k <> Some (merge_name prefix "")).
Proof.
  intros graph prefix gc idx nd Hnd.
  exists (io_rename nd prefix idx). split.
  - rewrite rename_graph_lookup, Hnd. reflexivity.
  - assert (Hne : Some "" <> Some (merge_name prefix "")).
    { intros [= Heq]. symmetry in Heq. exact (merge_name_nonempty _ _ Heq). }
    split; intros k Hk; simpl; rewrite list_lookup_fmap, Hk; simpl; auto.
Qed.

Lemma merge_name_op (prefix : string) (idx : nat) :
  merge_name prefix ("op" +:+ pretty idx) = prefix +:+ "_op" +:+ pretty idx.
Proof.
  unfold merge_name. reflexivity.
Qed.

Lemma process_node_body_name node prefix :
  n_name (_process_node_body node prefix) = n_name node.
Proof. unfold _process_node_body. destruct (forallb _ _); reflexivity. Qed.

(** C7. A node renamed under prefix [p] from position [idx] of its source
    sequence is called [p_op<idx>] when its own name is empty and [p_n] when
    its name is a non-empty [n]; unfolding a model node keeps that name when
    it goes on to process the node's body attributes. *)
Theorem C7_renamed_node_name :
  forall (graph : Graph) (p : string) (gc : Pools) (idx : nat) (nd : Node),
    g_node graph !! idx = Some nd ->
    exists nd',
      (_rename_graph graph p gc).2 !! idx = Some nd' /\
      (n_name nd = "" -> n_name nd' = p +:+ "_op" +:+ pretty idx) /\
      (n_name nd <> "" -> n_name nd' = p +:+ "_" +:+ n_name nd) /\
      n_name (_process_node_body nd' p) = n_name nd'.
Proof.
  intros graph p gc idx nd Hnd.
  exists (io_rename nd p idx). split; [|split; [|split]].
  - rewrite rename_graph_lookup, Hnd. reflexivity.
  - intros Hempty. simpl. rewrite Hempty. simpl. apply merge_name_op.
  - intros Hname. simpl. apply truthy_true in Hname. rewrite Hname.
    reflexivity.
  - apply process_node_body_name.
Qed.

Lemma C7_renamed_node_name_witness :
  exists nd',
    (_rename_graph
       (mkGraph [mkNode "relu" "Relu" ["x"] ["t"] [];
                 mkNode "" "Sigmoid" ["t"] ["y"] []] "g" [] [] [] [])
       "m" (mkPools [] [])).2 !! 1 = Some nd' /\
    n_name nd' = "m_op1".
Proof.
  destruct (C7_renamed_node_name
              (mkGraph [mkNode "relu" "Relu" ["x"] ["t"] [];
                        mkNode "" "Sigmoid" ["t"] ["y"] []] "g" [] [] [] [])
              "m" (mkPools [] []) 1 (mkNode "" "Sigmoid" ["t"] ["y"] [])
              eq_refl) as (nd' & Hlook & Hempty & _ & _).
  exists nd'. split; [exact Hlook|]. exact (Hempty eq_refl).
Defined.

Lemma C6_empty_slots_stay_empty_witness :
  exists nd',
    (_rename_graph
       (mkGraph [mkNode "clip" "Clip" ["x"; ""; "hi"] ["y"; ""] []]
                "g" [] [] [] [])
       "m" (mkPools [] [])).2 !! 0 = Some nd' /\
    n_input nd' !! 1 = Some "" /\ n_output nd' !! 1 = Some "".
Proof.
  destruct (C6_empty_slots_stay_empty
              (mkGraph [mkNode "clip" "Clip" ["x"; ""; "hi"] ["y"; ""] []]
                       "g" [] [] [] [])
              "m" (mkPools [] []) 0
              (mkNode "clip" "Clip" ["x"; ""; "hi"] ["y"; ""] [])
              eq_refl) as (nd' & Hlook & Hin & Hout).
  exists nd'. split; [exact Hlook|]. split.
  - exact (proj1 (Hin 1 eq_refl)).
  - exact (proj1 (Hout 1 eq_refl)).
Defined.

(** ** Removal of unused initializers *)

Lemma elem_of_nodes_input_set (nodes : list Node) (x : string) :
  x ∈ nodes_input_set nodes <-> exists nd_, nd_ ∈ nodes /\ x ∈ n_input nd_.
Proof.
  unfold nodes_input_set.
  assert (Hgen : forall (acc : gset string),
             x ∈ foldl (fun s nd_ => s ∪ list_to_set (n_input nd_)) acc nodes
             <-> x ∈ acc \/ exists nd_, nd_ ∈ nodes /\ x ∈ n_input nd_).
  { induction nodes as [|nd l IH]; intros acc; simpl.
    - split; [auto|]. intros [H|(nd_ & H & _)]; [exact H|].
      by apply elem_of_nil in H.
    - rewrite IH, elem_of_union, elem_of_list_to_set. split.
      + intros [[H|H]|(nd_ & H1 & H2)]; [by left| |].
        * right. exists nd. split; [apply list_elem_of_here | exact H].
        * right. exists nd_. split; [by apply list_elem_of_further | exact H2].
      + intros [H|(nd_ & H1 & H2)]; [by left; left|].
        apply elem_of_cons in H1 as [->|H1]; [by left; right|].
        right. by exists nd_. }
  rewrite Hgen. split; [|auto]. intros [H|H]; [|exact H].
  by apply not_elem_of_empty in H.
Qed.

Lemma remove_unused_initializers_elem (nodes : list Node)
    (inits : list TensorProto) (keep : gset string) (t : TensorProto) :
  t ∈ _remove_unused_initializers nodes inits keep <->
  t ∈ inits /\
  ((exists nd_, nd_ ∈ nodes /\ t_name t ∈ n_input nd_) \/ t_name t ∈ keep).
Proof.
  unfold _remove_unused_initializers.
  rewrite list_elem_of_filter, elem_of_nodes_input_set. tauto.
Qed.

(** C8. The initializers returned are, in their original order and
    unchanged, exactly those of the given list whose name is an input of
    some node of the node list or belongs to the keep-name set. The function
    is embedded without any write to its arguments because the source has
    none: the only object it mutates is its local set of input names. *)
Theorem C8_remove_unused_initializers :
  forall (nodes : list Node) (inits : list TensorProto) (keep : gset string),
    sublist (_remove_unused_initializers nodes inits keep) inits /\
    forall t : TensorProto,
      t ∈ _remove_unused_initializers nodes inits keep <->
      t ∈ inits /\
      ((exists nd_, nd_ ∈ nodes /\ t_name t ∈ n_input nd_) \/ t_name t ∈ keep).
Proof.
  intros nodes inits keep. split.
  - unfold _remove_unused_initializers. apply sublist_filter.
  - apply remove_unused_initializers_elem.
Qed.

(** ** Unfolding of model nodes *)

Lemma dict_keys_set {V} (k k' : string) (v : V) (d : list (string * V)) :
  k' ∈ dict_keys (dict_set k v d) <-> k' = k \/ k' ∈ dict_keys d.
Proof.
  unfold dict_keys. induction d as [|[k0 v0] d IH]; simpl.
  - rewrite list_elem_of_singleton. split; [auto|].
    intros [H|H]; [exact H|]. by apply elem_of_nil in H.
  - destruct (decide (k0 = k)) as [->|Hne]; simpl.
    + rewrite !elem_of_cons. tauto.
    + rewrite !elem_of_cons, IH. tauto.
Qed.

Lemma dict_set_elem {V} (k k' : string) (v v' : V) (d : list (string * V)) :
  (k', v') ∈ dict_set k v d -> (k', v') = (k, v) \/ (k', v') ∈ d.
Proof.
  induction d as [|[k0 v0] d IH]; simpl.
  - rewrite list_elem_of_singleton. auto.
  - destruct (decide (k0 = k)) as [->|Hne]; rewrite !elem_of_cons.
    + tauto.
    + intros [H|H]; [tauto|]. destruct (IH H); tauto.
Qed.

Lemma model_nodes_of_snoc (l : list ContainerNode) (cn : ContainerNode) :
  model_nodes_of (l ++ [cn]) =
  match cn with
  | ModelNode name model => dict_set name model (model_nodes_of l)
  | OnnxNode _ => model_nodes_of l
  end.
Proof. unfold model_nodes_of. rewrite foldl_app. reflexivity. Qed.

Lemma model_nodes_of_keys (l : list ContainerNode) (k : string) :
  k ∈ dict_keys (model_nodes_of l) <-> exists model, ModelNode k model ∈ l.
Proof.
  induction l as [|cn l IH] using rev_ind.
  - simpl. split; [intros H; by apply elem_of_nil in H|].
    intros [m H]. by apply elem_of_nil in H.
  - rewrite model_nodes_of_snoc. destruct cn as [nd|name model].
    + rewrite IH. split; intros [m H]; exists m.
      * apply elem_of_app. by left.
      * apply elem_of_app in H as [H|H]; [exact H|].
        apply list_elem_of_singleton in H. discriminate.
    + rewrite dict_keys_set, IH. split.
      * intros [->|[m H]].
        -- exists model. apply elem_of_app. right.
           by apply list_elem_of_singleton.
        -- exists m. apply elem_of_app. by left.
      * intros [m H]. apply elem_of_app in H as [H|H].
        -- right. by exists m.
        -- apply list_elem_of_singleton in H. injection H as -> _. by left.
Qed.

Lemma model_nodes_of_elem (l : list ContainerNode) (k : string) (m : Model) :
  (k, m) ∈ model_nodes_of l -> ModelNode k m ∈ l.
Proof.
  induction l as [|cn l IH] using rev_ind.
  - intros H. by apply elem_of_nil in H.
  - rewrite model_nodes_of_snoc. destruct cn as [nd|name model]; intros H.
    + apply elem_of_app. left. by apply IH.
    + apply dict_set_elem in H as [[= -> ->]|H]; apply elem_of_app.
      * right. by apply list_elem_of_singleton.
      * left. by apply IH.
Qed.

Lemma unfold_loop_nodes (ms : list (string * Model)) (c : Container)
    (acc : list ContainerNode) :
  (foldl unfold_one (c, acc) ms).2 = acc ++ mjoin (expansion <$> ms).
Proof.
  revert c acc. induction ms as [|node ms IH]; intros c acc; simpl.
  - by rewrite app_nil_r.
  - rewrite IH. unfold expansion at 2. simpl. by rewrite <- app_assoc.
Qed.

(** C9. The node list returned by [unfold_model_node] is the ordinary nodes
    of the container whose name is not the name of any of its model nodes,
    followed by the expanded contents of the model nodes; an ordinary node
    that shares its name with a model node is left out of the first part. *)
Theorem C9_unfold_omits_shadowed_nodes :
  forall container : Container,
    exists kept expanded : list ContainerNode,
      (unfold_model_node container).2 = kept ++ expanded /\
      (forall cn, cn ∈ kept <->
         cn ∈ nodes container /\ has_model cn = false /\
         forall name model,
           ModelNode name model ∈ nodes container -> cn_name cn <> name) /\
      (forall cn, cn ∈ expanded <->
         exists name model idx nd,
           (name, model) ∈ model_nodes_of (nodes container) /\
           g_node (graph model) !! idx = Some nd /\
           cn = OnnxNode (_process_node_body (io_rename nd name idx) name)) /\
      (forall name model,
         (name, model) ∈ model_nodes_of (nodes container) ->
         ModelNode name model ∈ nodes container).
Proof.
  intros container.
  exists (filter (fun nd_ => cn_name nd_ ∉ dict_keys (model_nodes_of (nodes container)))
                 (nodes container)),
         (mjoin (expansion <$> model_nodes_of (nodes container))).
  split; [|split; [|split]].
  - unfold unfold_model_node. apply unfold_loop_nodes.
  - intros cn. rewrite list_elem_of_filter, model_nodes_of_keys. split.
    + intros [Hnot Hin]. split; [exact Hin|]. split.
      * destruct cn as [nd|name model]; [reflexivity|].
        exfalso. apply Hnot. by exists model.
      * intros name model Hm Heq. apply Hnot. exists model. by rewrite Heq.
    + intros (Hin & _ & Hne). split; [|exact Hin].
      intros [model Hm]. exact (Hne _ _ Hm eq_refl).
  - intros cn. rewrite list_elem_of_join. split.
    + intros (l & Hcn & Hl). apply list_elem_of_fmap in Hl as ([name model] & -> & Hnm).
      unfold expansion in Hcn.
      apply list_elem_of_fmap in Hcn as (nd' & -> & Hnd').
      apply list_elem_of_lookup in Hnd' as [idx Hidx].
      rewrite rename_graph_lookup in Hidx. simpl in Hidx.
      destruct (g_node (graph model) !! idx) as [nd|] eqn:Hnd; [|discriminate].
      injection Hidx as <-. by exists name, model, idx, nd.
    + intros (name & model & idx & nd & Hnm & Hnd & ->).
      exists (expansion (name, model)). split.
      * unfold expansion. apply list_elem_of_fmap.
        exists (io_rename nd name idx). split; [reflexivity|].
        apply list_elem_of_lookup. exists idx.
        rewrite rename_graph_lookup. simpl. by rewrite Hnd.
      * apply list_elem_of_fmap. by exists (name, model).
  - apply model_nodes_of_elem.
Qed.

(** ** Body attributes *)






(** ** Loops that may raise *)

Section for_each.
Context {A S : Type} (body : S -> A -> result S).

Lemma for_each_app (l1 l2 : list A) (s : S) :
  for_each body (l1 ++ l2) s = s' ← for_each body l1 s; for_each body l2 s'.
Proof.
  revert s. induction l1 as [|a l1 IH]; intros s; simpl; [reflexivity|].
  destruct (body s a) as [s1|e]; simpl; [apply IH | reflexivity].
Qed.

Lemma for_each_Raise_inv (l : list A) (s : S) (e : exn) :
  for_each body l s = Raise e -> exists a s1, a ∈ l /\ body s1 a = Raise e.
Proof.
  revert s. induction l as [|a l IH]; intros s; simpl; [discriminate|].
  destruct (body s a) as [s1|e'] eqn:Hb; simpl.
  - intros H. destruct (IH _ H) as (a' & s' & Hin & Ha').
    exists a', s'. split; [by apply list_elem_of_further | exact Ha'].
  - intros [= ->]. exists a, s. split; [apply list_elem_of_here | exact Hb].
Qed.

Lemma for_each_Ok_inv (l : list A) (s s' : S) :
  for_each body l s = Ok s' ->
  forall a, a ∈ l -> exists s1 s2, body s1 a = Ok s2.
Proof.
  revert s. induction l as [|a l IH]; intros s; simpl.
  - intros _ a Ha. by apply elem_of_nil in Ha.
  - destruct (body s a) as [s1|e] eqn:Hb; simpl; [|discriminate].
    intros H a' Ha'. apply elem_of_cons in Ha' as [->|Ha'].
    + by exists s, s1.
    + by apply (IH _ H).
Qed.

Lemma for_each_Ok_intro (l : list A) :
  (forall a s, a ∈ l -> exists s', body s a = Ok s') ->
  forall s, exists s', for_each body l s = Ok s'.
Proof.
  induction l as [|a l IH]; intros Hall s; simpl; [by exists s|].
  destruct (Hall a s) as [s1 ->]; [apply list_elem_of_here|]. simpl.
  apply IH. intros a' s' Ha'. apply Hall. by apply list_elem_of_further.
Qed.

(** Induction over the part of the list that has been processed. *)
Lemma for_each_snoc_ind (R : list A -> S -> Prop) (s0 : S) :
  R [] s0 ->
  (forall l a s s', R l s -> body s a = Ok s' -> R (l ++ [a]) s') ->
  forall l s', for_each body l s0 = Ok s' -> R l s'.
Proof.
  intros H0 Hstep l s'.
  assert (Hgen : forall l done s,
             R done s -> for_each body l s = Ok s' -> R (done ++ l) s').
  { clear l. induction l as [|a l IH]; intros done s HR; simpl.
    - intros [= <-]. by rewrite app_nil_r.
    - destruct (body s a) as [s1|e] eqn:Hb; simpl; [|discriminate].
      intros H.
      replace (done ++ a :: l) with ((done ++ [a]) ++ l)
        by (by rewrite <- app_assoc).
      apply (IH _ s1); [|exact H]. by apply (Hstep _ _ s). }
  apply (Hgen l [] s0 H0).
Qed.
End for_each.

(** ** The producer index *)

Lemma insert_outputs_lookup (v : vertex) (ks : list string)
    (m : gmap string vertex) (x : string) :
  foldl (fun m ky_ => <[ky_ := v]> m) m ks !! x
  = if decide (x ∈ ks) then Some v else m !! x.
Proof.
  revert m. induction ks as [|k ks IH]; intros m; simpl.
  - destruct (decide (x ∈ [])) as [H|_]; [by apply elem_of_nil in H | done].
  - rewrite IH. destruct (decide (x ∈ ks)) as [Hin|Hnin].
    + rewrite decide_True; [done | by apply list_elem_of_further].
    + destruct (decide (k = x)) as [->|Hne].
      * rewrite lookup_insert_eq, decide_True; [done | apply list_elem_of_here].
      * rewrite lookup_insert_ne by done. rewrite decide_False; [done|].
        intros [?|?]%elem_of_cons; congruence.
Qed.

Section producer_fold.
Let index (m0 : gmap string vertex) (vs : list vertex) : gmap string vertex :=
  foldl (fun m nd_ => foldl (fun m ky_ => <[ky_ := nd_]> m) m (v_output nd_))
        m0 vs.

Lemma index_snoc m0 vs v x :
  index m0 (vs ++ [v]) !! x
  = if decide (x ∈ v_output v) then Some v else index m0 vs !! x.
Proof. unfold index. rewrite foldl_app. simpl. apply insert_outputs_lookup. Qed.

Lemma index_lookup_Some m0 vs x p :
  index m0 vs !! x = Some p ->
  m0 !! x = Some p \/ (p ∈ vs /\ x ∈ v_output p).
Proof.
  induction vs as [|v vs IH] using rev_ind; [by left|].
  rewrite index_snoc. destruct (decide (x ∈ v_output v)) as [Hin|Hnin].
  - intros [= <-]. right. split; [|exact Hin].
    apply elem_of_app. right. apply list_elem_of_here.
  - intros H. destruct (IH H) as [?|[? ?]]; [by left|].
    right. split; [|done]. apply elem_of_app. by left.
Qed.

Lemma index_is_Some m0 vs x :
  is_Some (index m0 vs !! x) <->
  is_Some (m0 !! x) \/ exists v, v ∈ vs /\ x ∈ v_output v.
Proof.
  induction vs as [|v vs IH] using rev_ind.
  - simpl. split; [by left|]. intros [H|(v & H & _)]; [exact H|].
    by apply elem_of_nil in H.
  - rewrite index_snoc. destruct (decide (x ∈ v_output v)) as [Hin|Hnin].
    + split; [|by eexists]. intros _. right. exists v. split; [|exact Hin].
      apply elem_of_app. right. apply list_elem_of_here.
    + rewrite IH. split.
      * intros [H|(v' & H1 & H2)]; [by left|]. right. exists v'.
        split; [|exact H2]. apply elem_of_app. by left.
      * intros [H|(v' & H1 & H2)]; [by left|].
        apply elem_of_app in H1 as [H1|H1]; [right; by exists v'|].
        apply list_elem_of_singleton in H1. by subst v'.
Qed.
End producer_fold.

Section producers.
Context (container : Container) (nodes : list Node)
        (inputs : list ValueInfoProto).

Lemma indexed_vertex (p : vertex) :
  p ∈ (Op <$> nodes) ++ input_nodes container nodes inputs ->
  p = Dyn (placeholder container inputs) \/
  exists nd_, p = Op nd_ /\ nd_ ∈ nodes.
Proof.
  unfold input_nodes. rewrite elem_of_app, elem_of_cons, !list_elem_of_fmap.
  intros [(nd & -> & H)|[->|(nd & -> & H)]]; [right|by left|right].
  - by exists nd.
  - exists nd. split; [done|]. by apply list_elem_of_filter in H as [_ H].
Qed.

Lemma op_output_map_Some (x : string) (p : vertex) :
  op_output_map container nodes inputs !! x = Some p ->
  (p = Dyn (placeholder container inputs)
   /\ x ∈ external_names container inputs) \/
  (exists nd_, p = Op nd_ /\ nd_ ∈ nodes /\ x ∈ n_output nd_).
Proof.
  unfold op_output_map. intros H.
  apply index_lookup_Some in H as [H|[Hp Hx]]; [by rewrite lookup_empty in H|].
  apply indexed_vertex in Hp as [->|(nd & -> & Hnd)].
  - left. by split.
  - right. by exists nd.
Qed.

Lemma op_output_map_is_Some (x : string) :
  is_Some (op_output_map container nodes inputs !! x)
  <-> has_producer container nodes inputs x.
Proof.
  unfold op_output_map, has_producer. rewrite index_is_Some. split.
  - intros [H|(v & Hv & Hx)]; [by rewrite lookup_empty in H; destruct H|].
    apply indexed_vertex in Hv as [->|(nd & -> & Hnd)]; [by left|].
    right. by exists nd.
  - intros [H|(nd & Hnd & Hx)]; right.
    + exists (Dyn (placeholder container inputs)). split; [|exact H].
      apply elem_of_app. right. apply list_elem_of_here.
    + exists (Op nd). split; [|exact Hx].
      apply elem_of_app. left. by apply list_elem_of_fmap_2.
Qed.

Lemma op_output_map_None (x : string) :
  op_output_map container nodes inputs !! x = None
  <-> ~ has_producer container nodes inputs x.
Proof.
  rewrite <- op_output_map_is_Some, eq_None_not_Some. reflexivity.
Qed.
End producers.

(** ** Dangling references *)

Lemma add_edge_Raise producers op edges x e :
  add_edge producers op edges x = Raise e ->
  x <> "" /\ producers !! x = None
  /\ e = RuntimeError (dangling_msg (n_name op) x).
Proof.
  unfold add_edge. destruct (decide (x = "")); [discriminate|].
  destruct (producers !! x); [discriminate|]. by intros [= <-].
Qed.

Lemma add_edge_Ok producers op edges x edges' :
  add_edge producers op edges x = Ok edges' ->
  x = "" \/ is_Some (producers !! x).
Proof.
  unfold add_edge. destruct (decide (x = "")); [by left|].
  destruct (producers !! x); [by right; eexists | discriminate].
Qed.

(** C4. Whenever some node names a non-empty input tensor that no node
    output, initializer or declared graph input provides, the sort raises the
    runtime error whose message consists of the name of such a node and the
    unresolved tensor name around the fixed text. *)
Theorem C4_dangling_reference :
  forall (container : Container) (nodes : list Node)
         (inputs outputs : list ValueInfoProto),
    (exists op x, op ∈ nodes /\ x ∈ n_input op /\ x <> "" /\
                  ~ has_producer container nodes inputs x) ->
    exists op x,
      op ∈ nodes /\ x ∈ n_input op /\ x <> "" /\
      ~ has_producer container nodes inputs x /\
      topological_sort container nodes inputs outputs
      = Raise (RuntimeError
                 (n_name op +:+ ": cannot find an operator to produce the tensor: "
                  +:+ x)).
Proof.
  intros container nodes inputs outputs (op & x & Hop & Hx & Hne & Hnone).
  unfold topological_sort, all_edges.
  destruct (build_edges (op_output_map container nodes inputs) nodes)
    as [edges|e] eqn:Hbuild.
  - exfalso. unfold build_edges in Hbuild.
    destruct (for_each_Ok_inv _ _ _ _ Hbuild op Hop) as (s1 & s2 & Hinner).
    destruct (for_each_Ok_inv _ _ _ _ Hinner x Hx) as (s3 & s4 & Hadd).
    apply add_edge_Ok in Hadd as [?|Hsome]; [done|].
    by apply op_output_map_is_Some in Hsome.
  - unfold build_edges in Hbuild.
    apply for_each_Raise_inv in Hbuild as (op' & s1 & Hop' & Hinner).
    apply for_each_Raise_inv in Hinner as (x' & s2 & Hx' & Hadd).
    apply add_edge_Raise in Hadd as (Hne' & Hnone' & ->).
    exists op', x'. repeat split; try done.
    by apply op_output_map_None.
Qed.

Lemma C4_dangling_reference_witness :
  exists op x,
    op ∈ [plain_node "B" "Relu" ["a"] ["b"]; plain_node "A" "Relu" ["q"] ["a"]]
    /\ x ∈ n_input op /\
    topological_sort (bare_container [])
      [plain_node "B" "Relu" ["a"] ["b"]; plain_node "A" "Relu" ["q"] ["a"]]
      [float_info "x"] [float_info "b"]
    = Raise (RuntimeError
               (n_name op +:+ ": cannot find an operator to produce the tensor: "
                +:+ x)).
Proof.
  destruct (C4_dangling_reference (bare_container [])
              [plain_node "B" "Relu" ["a"] ["b"]; plain_node "A" "Relu" ["q"] ["a"]]
              [float_info "x"] [float_info "b"]) as (op & x & H1 & H2 & _ & _ & H3).
  - exists (plain_node "A" "Relu" ["q"] ["a"]), "q".
    split; [apply list_elem_of_further, list_elem_of_here|].
    split; [apply list_elem_of_here|]. split; [discriminate|].
    unfold has_producer, external_names. simpl.
    intros [H|(nd & Hnd & H)].
    + apply list_elem_of_singleton in H. discriminate.
    + repeat (apply elem_of_cons in Hnd as [->|Hnd];
              [apply list_elem_of_singleton in H; discriminate|]).
      by apply elem_of_nil in Hnd.
  - exists op, x. by repeat split.
Defined.

(** ** Joining models *)

Lemma pretty_1 : pretty 1 = "1".
Proof. reflexivity. Qed.

Lemma pretty_2 : pretty 2 = "2".
Proof. reflexivity. Qed.

Lemma mdl_prefix_lookup (models : list Model) (i : nat) (M : Model) :
  models !! i = Some M -> mdl_prefix models !! i = Some (prefix_of i).
Proof.
  intros HM. apply lookup_lt_Some in HM. unfold mdl_prefix.
  by rewrite list_lookup_fmap, lookup_seq_lt.
Qed.

Lemma rewire_input (port_mapping : gmap string string) (_n : Node) :
  n_input (rewire port_mapping _n)
  = (fun _i => default _i (port_mapping !! _i)) <$> n_input _n.
Proof.
  unfold rewire. destruct (existsb _ _) eqn:Hex; [reflexivity|].
  rewrite <- (list_fmap_id (n_input _n)) at 1.
  apply list_fmap_ext. intros k _i Hi. simpl.
  destruct (port_mapping !! _i) as [o|] eqn:Hlook; [|reflexivity].
  exfalso. apply not_true_iff_false in Hex. apply Hex.
  apply existsb_exists. exists _i. split.
  - apply list_elem_of_In. by apply list_elem_of_lookup_2 in Hi.
  - apply bool_decide_eq_true. rewrite Hlook. by eexists.
Qed.

Lemma rewire_output (port_mapping : gmap string string) (_n : Node) :
  n_output (rewire port_mapping _n) = n_output _n.
Proof. unfold rewire. by destruct (existsb _ _). Qed.

(** C5. Joining a one-node graph with declared input [x] and output [y] and
    a one-node graph with declared input [y] and output [z], without an
    [io_mapping], gives a model with external input [g1_x] and external
    output [g2_z] whose second node reads [g1_y], the renamed output of the
    first node, and not [g2_y]. *)
Theorem C5_join_two_single_node_graphs :
  forall (x y z : string) (n1 n2 : Node) (G1 G2 : Graph)
         (ops1 ops2 : list OperatorSetIdProto),
    y <> "" ->
    g_node G1 = [n1] -> n_input n1 = [x] -> n_output n1 = [y] ->
    vi_name <$> g_input G1 = [x] -> vi_name <$> g_output G1 = [y] ->
    g_node G2 = [n2] -> n_input n2 = [y] -> n_output n2 = [z] ->
    vi_name <$> g_input G2 = [y] -> vi_name <$> g_output G2 = [z] ->
    exists (m : Model) (n1' n2' : Node),
      join_models [mkModel G1 ops1; mkModel G2 ops2] None = Ok m /\
      vi_name <$> g_input (graph m) = ["g1_" +:+ x] /\
      vi_name <$> g_output (graph m) = ["g2_" +:+ z] /\
      g_node (graph m) = [n1'; n2'] /\
      n_output n1' = ["g1_" +:+ y] /\
      n_input n2' = ["g1_" +:+ y] /\
      n_input n2' <> ["g2_" +:+ y].
Proof.
  intros x y z n1 n2 G1 G2 ops1 ops2 Hy Hn1 Hi1 Ho1 Hgi1 Hgo1 Hn2 Hi2 Ho2
         Hgi2 Hgo2.
  destruct (g_input G1) as [|vx [|]] eqn:EgiG1; try discriminate.
  destruct (g_output G1) as [|vy [|]] eqn:EgoG1; try discriminate.
  destruct (g_input G2) as [|vy2 [|]] eqn:EgiG2; try discriminate.
  destruct (g_output G2) as [|vz [|]] eqn:EgoG2; try discriminate.
  simpl in *. injection Hgi1 as Hvx. injection Hgo1 as Hvy.
  injection Hgi2 as Hvy2. injection Hgo2 as Hvz.
  apply truthy_true in Hy as Hty.
  unfold join_models, wire_models, wire_input, gather, mdl_prefix, prefix_of,
    item. simpl.
  rewrite EgiG2, EgoG1, EgiG1, EgoG2. simpl.
  rewrite lookup_empty. simpl. rewrite Hn1, Hn2, !pretty_1, !pretty_2. simpl.
  eexists _, _, _. split; [reflexivity|]. simpl.
  rewrite Hvx, Hvy, Hvy2, Hvz.
  split; [reflexivity|]. split; [reflexivity|]. split; [reflexivity|].
  rewrite rewire_output, rewire_input. simpl. rewrite Hi2, Ho1. simpl.
  rewrite Hty, lookup_insert_eq. simpl.
  split; [reflexivity|]. split; [reflexivity|]. discriminate.
Qed.

Lemma C5_join_two_single_node_graphs_witness :
  exists (m : Model) (n1' n2' : Node),
    join_models
      [mkModel (mkGraph [plain_node "f" "Identity" ["x"] ["y"]] "G1"
                        [float_info "x"] [float_info "y"] [] []) [];
       mkModel (mkGraph [plain_node "g" "Identity" ["y"] ["z"]] "G2"
                        [float_info "y"] [float_info "z"] [] []) []]
      None = Ok m /\
    vi_name <$> g_input (graph m) = ["g1_x"] /\
    vi_name <$> g_output (graph m) = ["g2_z"] /\
    g_node (graph m) = [n1'; n2'] /\
    n_input n2' = ["g1_y"].
Proof.
  destruct (C5_join_two_single_node_graphs "x" "y" "z"
              (plain_node "f" "Identity" ["x"] ["y"])
              (plain_node "g" "Identity" ["y"] ["z"])
              (mkGraph [plain_node "f" "Identity" ["x"] ["y"]] "G1"
                       [float_info "x"] [float_info "y"] [] [])
              (mkGraph [plain_node "g" "Identity" ["y"] ["z"]] "G2"
                       [float_info "y"] [float_info "z"] [] [])
              [] [])
    as (m & n1' & n2' & Hm & Hin & Hout & Hnodes & _ & Hwire & _);
    try reflexivity; [discriminate|].
  exists m, n1', n2'. by repeat split.
Defined.

Lemma gather_snoc (models : list Model) (M : Model) :
  gather (models ++ [M]) = gather_one (gather models) (length models, M).
Proof.
  unfold gather. rewrite imap_app, foldl_app. simpl.
  by rewrite Nat.add_0_r.
Qed.

Lemma gather_initializer (models : list Model) :
  initializer (gather models).1
  = mjoin (imap (fun k M =>
                   g_initializer (graph M)
                   ++ (_rename_iter (g_initializer (graph M))
                                    (prefix_of k) false).2)
                models).
Proof.
  induction models as [|M models IH] using rev_ind; [reflexivity|].
  rewrite gather_snoc, imap_app, join_app, <- IH. simpl.
  rewrite Nat.add_0_r, app_nil_r.
  unfold gather_one. destruct (gather models) as [container nodes]. simpl.
  by rewrite <- app_assoc.
Qed.

(** ** The traversal *)

Lemma NoDup_fmap_eq {A B} (f : A -> B) (l : list A) (a b : A) :
  NoDup (f <$> l) -> a ∈ l -> b ∈ l -> f a = f b -> a = b.
Proof.
  intros Hnd Ha Hb Hf.
  apply list_elem_of_lookup in Ha as [i Hi].
  apply list_elem_of_lookup in Hb as [j Hj].
  assert (i = j) as ->.
  { apply (NoDup_lookup (f <$> l) i j (f a)); [exact Hnd| |].
    - by rewrite list_lookup_fmap, Hi.
    - by rewrite list_lookup_fmap, Hj, Hf. }
  congruence.
Qed.

Lemma size_difference_singleton (V U : gset string) (x : string) :
  x ∈ V -> x ∉ U -> S (size (V ∖ (U ∪ {[x]}))) = size (V ∖ U).
Proof.
  intros HV HU.
  assert (Heq : V ∖ (U ∪ {[x]}) = (V ∖ U) ∖ {[x]}) by set_solver.
  assert (Hsub : ({[x]} : gset string) ⊆ V ∖ U) by set_solver.
  rewrite Heq, size_difference by exact Hsub.
  apply subseteq_size in Hsub. rewrite size_singleton in *. lia.
Qed.

Section traversal.
Context (edges : gmap string (list Node)) (nodes : list Node)
        (V : gset string).
Hypothesis successors_in_nodes :
  forall u s, s ∈ successors_of edges u -> s ∈ nodes.
Hypothesis unique_names : NoDup (n_name <$> nodes).
Hypothesis no_empty_key : edges !! "" = None.
Hypothesis no_cycle : forall u, ~ tc (edge edges) u u.
Hypothesis names_in_V : forall n, n ∈ nodes -> n_name n ∈ V.

Lemma finish_inv (v : vertex) (st2 : dfs_state) :
  vertex_ok nodes v ->
  dfs_inv edges nodes st2 ->
  v_name v ∉ visited st2 ->
  (forall s, s ∈ successors_of edges (v_name v) -> n_name s ∈ visited st2) ->
  dfs_inv edges nodes
    {| visited := visited st2 ∪ {[v_name v]};
       sorted_nodes := match v with
                       | Dyn _ => sorted_nodes st2
                       | Op nd => nd :: sorted_nodes st2
                       end;
       unfinished_nodes := unfinished_nodes st2 ∖ {[v_name v]} |}.
Proof.
  intros Hv [Hsorted Hnodup Hord Hclosed Hvis] Hfresh Hsucc.
  assert (Hclosed' : forall u s,
             u ∈ visited st2 ∪ {[v_name v]} ->
             s ∈ successors_of edges u ->
             n_name s ∈ visited st2 ∪ {[v_name v]}).
  { intros u s Hu Hs. apply elem_of_union. left.
    apply elem_of_union in Hu as [Hu|Hu]; [by apply (Hclosed u)|].
    apply elem_of_singleton in Hu as ->. by apply Hsucc. }
  destruct v as [d|nd]; simpl in *; constructor; simpl.
  - intros n Hn. destruct (Hsorted n Hn). split; [done|set_solver].
  - exact Hnodup.
  - exact Hord.
  - exact Hclosed'.
  - intros n Hn Hname. apply Hvis; [exact Hn|].
    apply elem_of_union in Hname as [?|Hname]; [done|].
    apply elem_of_singleton in Hname. by destruct (Hv n Hn).
  - intros n Hn. apply elem_of_cons in Hn as [->|Hn].
    + split; [exact Hv | set_solver].
    + destruct (Hsorted n Hn). split; [done | set_solver].
  - apply NoDup_cons. split; [|exact Hnodup].
    intros Hin. by destruct (Hsorted nd Hin).
  - intros l1 a l2 Heq s Hs. destruct l1 as [|b l1]; simpl in Heq.
    + injection Heq as <- <-. apply Hvis.
      * by apply (successors_in_nodes (n_name nd)).
      * by apply Hsucc.
    + injection Heq as _ Heq. by apply (Hord l1 a l2).
  - exact Hclosed'.
  - intros n Hn Hname.
    apply elem_of_union in Hname as [Hname|Hname].
    + apply list_elem_of_further. by apply Hvis.
    + apply elem_of_singleton in Hname.
      rewrite (NoDup_fmap_eq n_name nodes n nd unique_names Hn Hv Hname).
      apply list_elem_of_here.
Qed.

Lemma recursive_helper_ok (fuel : nat) :
  forall (v : vertex) (st : dfs_state),
    vertex_ok nodes v ->
    v_name v ∈ V ->
    unfinished_nodes st ⊆ V ->
    size (V ∖ unfinished_nodes st) < fuel ->
    (forall u, u ∈ unfinished_nodes st -> tc (edge edges) u (v_name v)) ->
    dfs_inv edges nodes st ->
    exists st',
      recursive_helper fuel edges v st = Ok st' /\
      post edges nodes (v_name v) st st' /\ v_name v ∈ visited st'.
Proof.
  induction fuel as [|fuel IH]; intros v st Hv HvV HU Hsize Hstack Hinv;
    [lia|].
  simpl. destruct (decide (v_name v ∈ visited st)) as [Hvisited|Hnew].
  { exists st. split; [done|]. split; [|done].
    split; [done|]. split; [done|]. split; [done|]. by left. }
  destruct (decide (v_name v ∈ unfinished_nodes st)) as [Hstk|Hnstk].
  { destruct (no_cycle (v_name v)). by apply Hstack. }
  set (st1 := {| visited := visited st; sorted_nodes := sorted_nodes st;
                 unfinished_nodes := unfinished_nodes st ∪ {[v_name v]} |}).
  assert (Hloop : forall ss st1',
             (forall s, s ∈ ss -> s ∈ successors_of edges (v_name v)) ->
             unfinished_nodes st1' = unfinished_nodes st1 ->
             dfs_inv edges nodes st1' ->
             exists st2,
               for_each (fun s successor =>
                           recursive_helper fuel edges (Op successor) s)
                        ss st1' = Ok st2 /\
               unfinished_nodes st2 = unfinished_nodes st1 /\
               dfs_inv edges nodes st2 /\
               visited st1' ⊆ visited st2 /\
               (forall s, s ∈ ss -> n_name s ∈ visited st2) /\
               (forall u, u ∈ visited st2 ->
                          u ∈ visited st1' \/ tc (edge edges) (v_name v) u)).
  { induction ss as [|s ss IHss]; intros st1' Hss Hunf Hinv1; simpl.
    - exists st1'. split; [done|]. split; [done|]. split; [done|].
      split; [done|]. split; [|by left].
      intros s Hs. by apply elem_of_nil in Hs.
    - assert (Hs : s ∈ successors_of edges (v_name v))
        by apply Hss, list_elem_of_here.
      assert (Hedge : edge edges (v_name v) (n_name s)) by by exists s.
      destruct (IH (Op s) st1') as (st1'' & -> & Hpost & Hsv).
      + simpl. by apply (successors_in_nodes (v_name v)).
      + simpl. apply names_in_V. by apply (successors_in_nodes (v_name v)).
      + rewrite Hunf. simpl. set_solver.
      + rewrite Hunf. simpl.
        pose proof (size_difference_singleton V (unfinished_nodes st)
                      (v_name v) HvV Hnstk). lia.
      + rewrite Hunf. simpl. intros u Hu.
        apply elem_of_union in Hu as [Hu|Hu].
        * eapply tc_r; [by apply Hstack | exact Hedge].
        * apply elem_of_singleton in Hu as ->. by apply tc_once.
      + exact Hinv1.
      + simpl. destruct Hpost as (Hunf' & Hinv' & Hmono & Horigin).
        destruct (IHss st1'') as (st2 & -> & Hunf2 & Hinv2 & Hmono2 & Hall & Horigin2).
        * intros s' Hs'. by apply Hss, list_elem_of_further.
        * by rewrite Hunf'.
        * exact Hinv'.
        * exists st2. split; [done|]. split; [done|]. split; [done|].
          split; [set_solver|]. split.
          -- intros s' Hs'. apply elem_of_cons in Hs' as [->|Hs'].
             ++ by apply Hmono2.
             ++ by apply Hall.
          -- intros u Hu. destruct (Horigin2 u Hu) as [Hu'|Hu']; [|by right].
             destruct (Horigin u Hu') as [?|Hrtc]; [by left|right].
             simpl in Hrtc. eapply tc_rtc_r; [by apply tc_once | exact Hrtc]. }
  assert (Hbody : exists st2,
             match edges !! v_name v with
             | Some successors =>
                 if decide (v_name v = "")
                 then Raise (AssertionError unique_name_msg)
                 else for_each
                        (fun s successor =>
                           recursive_helper fuel edges (Op successor) s)
                        successors st1
             | None => Ok st1
             end = Ok st2 /\
             unfinished_nodes st2 = unfinished_nodes st1 /\
             dfs_inv edges nodes st2 /\
             visited st ⊆ visited st2 /\
             (forall s, s ∈ successors_of edges (v_name v) ->
                        n_name s ∈ visited st2) /\
             (forall u, u ∈ visited st2 ->
                        u ∈ visited st \/ tc (edge edges) (v_name v) u)).
  { assert (Hinv1 : dfs_inv edges nodes st1) by (by destruct Hinv).
    destruct (edges !! v_name v) as [successors|] eqn:Hlook.
    - destruct (decide (v_name v = "")) as [Hempty|_];
        [by rewrite Hempty, no_empty_key in Hlook|].
      destruct (Hloop successors st1) as (st2 & ? & ? & ? & ? & ? & ?);
        try done.
      + intros s Hs. unfold successors_of. by rewrite Hlook.
      + exists st2. split; [done|]. split; [done|]. split; [done|].
        split; [done|]. split; [|done].
        unfold successors_of. by rewrite Hlook.
    - exists st1. split; [done|]. split; [done|]. split; [done|].
      split; [done|]. split; [|by left].
      unfold successors_of. rewrite Hlook. simpl.
      intros s Hs. by apply elem_of_nil in Hs. }
  destruct Hbody as (st2 & -> & Hunf2 & Hinv2 & Hmono & Hsucc & Horigin).
  simpl. rewrite decide_True by (rewrite Hunf2; simpl; set_solver).
  assert (Hfresh : v_name v ∉ visited st2).
  { intros Hin. destruct (Horigin _ Hin) as [?|Hcyc]; [done|].
    by apply (no_cycle (v_name v)). }
  eexists. split; [reflexivity|]. split; [|simpl; set_solver].
  split; [simpl; rewrite Hunf2; simpl; set_solver|].
  split; [by apply finish_inv|].
  split; [simpl; set_solver|].
  simpl. intros u Hu. apply elem_of_union in Hu as [Hu|Hu].
  - destruct (Horigin u Hu) as [?|Htc]; [by left|right]. by apply tc_rtc.
  - apply elem_of_singleton in Hu as ->. right. apply rtc_refl.
Qed.

Lemma roots_ok (fuel : nat) (roots : list vertex) :
  size V < fuel ->
  (forall r, r ∈ roots -> vertex_ok nodes r /\ v_name r ∈ V) ->
  forall st,
    unfinished_nodes st = ∅ ->
    dfs_inv edges nodes st ->
    exists st',
      for_each (fun st nd_ => recursive_helper fuel edges nd_ st) roots st
      = Ok st' /\
      dfs_inv edges nodes st' /\
      visited st ⊆ visited st' /\
      forall r, r ∈ roots -> v_name r ∈ visited st'.
Proof.
  intros Hfuel. induction roots as [|r roots IH]; intros Hroots st Hunf Hinv;
    simpl.
  - exists st. split; [done|]. split; [done|]. split; [done|].
    intros r Hr. by apply elem_of_nil in Hr.
  - destruct (Hroots r) as [Hr HrV]; [apply list_elem_of_here|].
    destruct (recursive_helper_ok fuel r st) as (st1 & -> & Hpost & Hrv);
      try done.
    + rewrite Hunf. set_solver.
    + rewrite Hunf. by replace (V ∖ ∅) with V by set_solver.
    + rewrite Hunf. set_solver.
    + simpl. destruct Hpost as (Hunf1 & Hinv1 & Hmono & _).
      destruct (IH (fun r' Hr' => Hroots r' (list_elem_of_further _ _ _ Hr')) st1)
        as (st' & -> & Hinv' & Hmono' & Hall); [by rewrite Hunf1 | done |].
      exists st'. split; [done|]. split; [done|]. split; [set_solver|].
      intros r' Hr'. apply elem_of_cons in Hr' as [->|Hr'].
      * by apply Hmono'.
      * by apply Hall.
Qed.

Lemma closed_reach (st : dfs_state) (u w : string) :
  dfs_inv edges nodes st -> rtc (edge edges) u w ->
  u ∈ visited st -> w ∈ visited st.
Proof.
  intros Hinv Hrtc. induction Hrtc as [|x y z [s [Hs <-]] _ IH]; [done|].
  intros Hx. apply IH. by apply (inv_closed _ _ _ Hinv x).
Qed.

Lemma ordered_index (st : dfs_state) (i j : nat) (a b : Node) :
  dfs_inv edges nodes st ->
  sorted_nodes st !! i = Some a -> sorted_nodes st !! j = Some b ->
  b ∈ successors_of edges (n_name a) -> i < j.
Proof.
  intros Hinv Hi Hj Hb.
  pose proof (take_drop_middle _ _ _ Hi) as Heq. symmetry in Heq.
  pose proof (inv_ordered _ _ _ Hinv _ _ _ Heq b Hb) as Hin.
  apply list_elem_of_lookup in Hin as [k Hk].
  rewrite lookup_drop in Hk.
  pose proof (inv_nodup _ _ _ Hinv) as Hnd.
  assert (j = S i + k); [|lia].
  by apply (NoDup_lookup _ _ _ b Hnd).
Qed.
End traversal.

(** ** The successor dictionary *)

Section edges.
Context (producers : gmap string vertex).

Lemma add_edge_spec op e x e' :
  add_edge producers op e x = Ok e' ->
  (forall u s, s ∈ successors_of e' u <->
               s ∈ successors_of e u \/ (s = op /\ feeds producers u x)) /\
  (forall u, is_Some (e' !! u) ->
             is_Some (e !! u) \/ names_producer producers u).
Proof.
  unfold add_edge, feeds. destruct (decide (x = "")) as [Hx|Hx].
  { intros [= <-]. split; [|by left]. intros u s. split; [by left|].
    intros [?|(_ & ? & _)]; done. }
  destruct (producers !! x) as [p|] eqn:Hp; [|discriminate].
  intros [= <-]. split.
  - intros u s. unfold successors_of.
    destruct (decide (v_name p = u)) as [<-|Hne].
    + rewrite lookup_insert_eq. simpl. rewrite elem_of_app, list_elem_of_singleton.
      split; intros [?|?]; try by left.
      * right. split; [done|]. split; [done|]. by exists p.
      * right. tauto.
    + rewrite lookup_insert_ne by done. split; [by left|].
      intros [?|(_ & _ & p' & [= <-] & ?)]; done.
  - intros u. destruct (decide (v_name p = u)) as [<-|Hne].
    + intros _. right. by exists x, p.
    + rewrite lookup_insert_ne by done. by left.
Qed.

Lemma input_loop_spec op xs e e' :
  for_each (add_edge producers op) xs e = Ok e' ->
  (forall u s, s ∈ successors_of e' u <->
               s ∈ successors_of e u \/
               (s = op /\ exists x, x ∈ xs /\ feeds producers u x)) /\
  (forall u, is_Some (e' !! u) ->
             is_Some (e !! u) \/ names_producer producers u).
Proof.
  revert e' . revert xs.
  apply (for_each_snoc_ind (add_edge producers op)
           (fun xs e' =>
              (forall u s, s ∈ successors_of e' u <->
                 s ∈ successors_of e u \/
                 (s = op /\ exists x, x ∈ xs /\ feeds producers u x)) /\
              (forall u, is_Some (e' !! u) ->
                 is_Some (e !! u) \/ names_producer producers u))).
  - split; [|by left]. intros u s. split; [by left|].
    intros [?|(_ & x & Hx & _)]; [done|]. by apply elem_of_nil in Hx.
  - intros l x e1 e2 [Hs Hk] Hadd.
    apply add_edge_spec in Hadd as [Hs' Hk']. split.
    + intros u s. rewrite Hs', Hs. split.
      * intros [[?|(-> & x' & ? & ?)]|(-> & ?)]; [by left|right|right].
        -- split; [done|]. exists x'. split; [|done]. apply elem_of_app. by left.
        -- split; [done|]. exists x. split; [|done]. apply elem_of_app.
           right. apply list_elem_of_here.
      * intros [?|(-> & x' & Hx' & ?)]; [by left; left|].
        apply elem_of_app in Hx' as [?|Hx'].
        -- left. right. split; [done|]. by exists x'.
        -- apply list_elem_of_singleton in Hx' as ->. by right.
    + intros u Hu. destruct (Hk' u Hu) as [Hu'|?]; [|by right]. by apply Hk.
Qed.

Lemma build_edges_spec ops edges :
  build_edges producers ops = Ok edges ->
  (forall u s, s ∈ successors_of edges u <->
               s ∈ ops /\ exists x, x ∈ n_input s /\ feeds producers u x) /\
  (forall u, is_Some (edges !! u) -> names_producer producers u).
Proof.
  unfold build_edges. revert edges. revert ops.
  apply (for_each_snoc_ind
           (fun edges op =>
              for_each (add_edge producers op) (n_input op) edges)
           (fun ops edges =>
              (forall u s, s ∈ successors_of edges u <->
                 s ∈ ops /\ exists x, x ∈ n_input s /\ feeds producers u x) /\
              (forall u, is_Some (edges !! u) -> names_producer producers u))).
  - split.
    + intros u s. unfold successors_of. rewrite lookup_empty. simpl.
      split; [intros H; by apply elem_of_nil in H|].
      intros [H _]. by apply elem_of_nil in H.
    + intros u. rewrite lookup_empty. by intros [? ?].
  - intros l op e1 e2 [Hs Hk] Hloop.
    apply input_loop_spec in Hloop as [Hs' Hk']. split.
    + intros u s. rewrite Hs', Hs, elem_of_app, list_elem_of_singleton.
      split.
      * intros [[? ?]|[Heq ?]]; [split; [by left|done]|].
        subst s. split; [by right|done].
      * intros [[?|Heq] ?]; [by left|]. subst s. by right.
    + intros u Hu. destruct (Hk' u Hu) as [Hu'|?]; [|done]. by apply Hk.
Qed.

Lemma add_output_spec e y_ e' :
  add_output producers e y_ = Ok e' ->
  (forall u, successors_of e' u = successors_of e u) /\
  (forall u, is_Some (e' !! u) ->
             is_Some (e !! u) \/ names_producer producers u).
Proof.
  unfold add_output. destruct (producers !! vi_name y_) as [p|] eqn:Hp;
    [|discriminate].
  intros [= <-]. destruct (e !! v_name p) as [l|] eqn:Hl.
  - split; [done | by left].
  - split.
    + intros u. unfold successors_of.
      destruct (decide (v_name p = u)) as [<-|Hne].
      * by rewrite lookup_insert_eq, Hl.
      * by rewrite lookup_insert_ne.
    + intros u. destruct (decide (v_name p = u)) as [<-|Hne].
      * intros _. right. by exists (vi_name y_), p.
      * rewrite lookup_insert_ne by done. by left.
Qed.

Lemma output_loop_spec outputs e e' :
  for_each (add_output producers) outputs e = Ok e' ->
  (forall u, successors_of e' u = successors_of e u) /\
  (forall u, is_Some (e' !! u) ->
             is_Some (e !! u) \/ names_producer producers u).
Proof.
  revert e. induction outputs as [|y_ outputs IH]; intros e; simpl.
  - intros [= <-]. split; [done | by left].
  - destruct (add_output producers e y_) as [e1|] eqn:Hadd; [|discriminate].
    simpl. intros Hrest. apply add_output_spec in Hadd as [Hs Hk].
    apply IH in Hrest as [Hs' Hk']. split.
    + intros u. by rewrite Hs', Hs.
    + intros u Hu. destruct (Hk' u Hu) as [Hu'|?]; [|by right]. by apply Hk.
Qed.
End edges.

Lemma all_edges_spec container nodes inputs outputs edges :
  all_edges container nodes inputs outputs = Ok edges ->
  (forall u s, s ∈ successors_of edges u <->
     s ∈ nodes /\
     exists x, x ∈ n_input s /\
               feeds (op_output_map container nodes inputs) u x) /\
  (forall u, is_Some (edges !! u) ->
             names_producer (op_output_map container nodes inputs) u).
Proof.
  unfold all_edges.
  destruct (build_edges _ nodes) as [e|] eqn:Hbuild; [|discriminate].
  simpl. intros Hout.
  apply build_edges_spec in Hbuild as [Hs Hk].
  apply output_loop_spec in Hout as [Hs' Hk']. split.
  - intros u s. by rewrite Hs', Hs.
  - intros u Hu. destruct (Hk' u Hu) as [Hu'|?]; [|done]. by apply Hk.
Qed.

Lemma all_edges_Ok container nodes inputs outputs :
  (forall nd_ x, nd_ ∈ nodes -> x ∈ n_input nd_ -> x <> "" ->
                 has_producer container nodes inputs x) ->
  (forall y_, y_ ∈ outputs -> has_producer container nodes inputs (vi_name y_)) ->
  exists edges, all_edges container nodes inputs outputs = Ok edges.
Proof.
  intros Hin Hout. unfold all_edges, build_edges.
  destruct (for_each_Ok_intro
              (fun edges op =>
                 for_each (add_edge (op_output_map container nodes inputs) op)
                          (n_input op) edges) nodes) with (s := (∅ : gmap string (list Node)))
    as [e ->].
  - intros op s Hop. apply for_each_Ok_intro. intros x s' Hx.
    unfold add_edge. destruct (decide (x = "")); [by eexists|].
    destruct (proj2 (op_output_map_is_Some container nodes inputs x)
                (Hin op x Hop Hx n)) as [p ->]. by eexists.
  - simpl. apply for_each_Ok_intro. intros y_ s Hy. unfold add_output.
    destruct (proj2 (op_output_map_is_Some container nodes inputs (vi_name y_))
                (Hout y_ Hy)) as [p ->]. by eexists.
Qed.

(** ** Sorting a well-formed graph *)

Lemma initial_state_inv edges nodes : dfs_inv edges nodes initial_state.
Proof.
  constructor; simpl.
  - intros n Hn. by apply elem_of_nil in Hn.
  - apply NoDup_nil_2.
  - intros [|b l1] a l2 Heq; discriminate.
  - intros u s Hu. by apply not_elem_of_empty in Hu.
  - intros n _ Hn. by apply not_elem_of_empty in Hn.
Qed.

Section sorted_graph.
Context (container : Container) (nodes : list Node)
        (inputs outputs : list ValueInfoProto)
        (edges : gmap string (list Node)).
Hypothesis wf : well_formed container nodes inputs outputs.
Hypothesis built : all_edges container nodes inputs outputs = Ok edges.

Let producers := op_output_map container nodes inputs.

Lemma producer_of_output a x :
  a ∈ nodes -> x <> "" -> x ∈ n_output a -> producers !! x = Some (Op a).
Proof.
  intros Ha Hx Hout.
  destruct (proj2 (op_output_map_is_Some container nodes inputs x))
    as [p Hp]; [right; by exists a|].
  unfold producers. rewrite Hp. f_equal.
  apply op_output_map_Some in Hp as [[_ Hext]|(nd & -> & Hnd & Hout')].
  - by destruct (wf_fresh _ _ _ _ wf a x).
  - f_equal. by apply (wf_single _ _ _ _ wf nd a x).
Qed.

Lemma producer_of_external x :
  x <> "" -> x ∈ external_names container inputs ->
  producers !! x = Some (Dyn (placeholder container inputs)).
Proof.
  intros Hx Hext.
  destruct (proj2 (op_output_map_is_Some container nodes inputs x))
    as [p Hp]; [by left|].
  unfold producers. rewrite Hp. f_equal.
  apply op_output_map_Some in Hp as [[-> _]|(nd & -> & Hnd & Hout')]; [done|].
  by destruct (wf_fresh _ _ _ _ wf nd x).
Qed.

Lemma successors_are_nodes u s : s ∈ successors_of edges u -> s ∈ nodes.
Proof.
  intros Hs. by apply (proj1 (all_edges_spec _ _ _ _ _ built)) in Hs as [? _].
Qed.

Lemma dep_successor a b : dep nodes a b -> b ∈ successors_of edges (n_name a).
Proof.
  intros (Ha & Hb & x & Hx & Hout & Hin).
  apply (proj1 (all_edges_spec _ _ _ _ _ built)). split; [done|].
  exists x. split; [done|]. split; [done|]. exists (Op a).
  split; [by apply producer_of_output | done].
Qed.

Lemma entry_successor r :
  r ∈ nodes -> n_op_type r <> "Constant" -> entry container inputs r ->
  r ∈ successors_of edges "placeholder".
Proof.
  intros Hr Hconst [?|(x & Hx & Hin & Hext)]; [done|].
  apply (proj1 (all_edges_spec _ _ _ _ _ built)). split; [done|].
  exists x. split; [done|]. split; [done|].
  exists (Dyn (placeholder container inputs)).
  split; [by apply producer_of_external | done].
Qed.

Lemma edge_dep u w a :
  edge edges u w -> a ∈ nodes -> n_name a = u ->
  exists b, b ∈ nodes /\ n_name b = w /\ dep nodes a b.
Proof.
  intros (s & Hs & <-) Ha <-.
  apply (proj1 (all_edges_spec _ _ _ _ _ built)) in Hs
    as (Hsn & x & Hin & Hx & p & Hp & Hname).
  exists s. split; [done|]. split; [done|]. split; [done|]. split; [done|].
  exists x. split; [done|]. split; [|done].
  apply op_output_map_Some in Hp as [[-> _]|(nd & -> & Hnd & Hout)].
  - simpl in Hname. by destruct (wf_named _ _ _ _ wf a Ha) as [_ []].
  - simpl in Hname.
    by rewrite <- (NoDup_fmap_eq n_name nodes nd a (wf_names _ _ _ _ wf)).
Qed.

Lemma tc_edge_target u w :
  tc (edge edges) u w -> exists b, b ∈ nodes /\ n_name b = w.
Proof.
  induction 1 as [u w (s & Hs & <-)|]; [|done].
  exists s. split; [|done]. by apply (successors_are_nodes u).
Qed.

Lemma tc_edge_dep u w a :
  tc (edge edges) u w -> a ∈ nodes -> n_name a = u ->
  exists b, b ∈ nodes /\ n_name b = w /\ tc (dep nodes) a b.
Proof.
  intros Htc. revert a. induction Htc as [u w He|u v w He _ IH]; intros a Ha Hn.
  - destruct (edge_dep _ _ _ He Ha Hn) as (b & ? & ? & ?).
    exists b. split; [done|]. split; [done|]. by apply tc_once.
  - destruct (edge_dep _ _ _ He Ha Hn) as (b & Hb & Hbn & Hdep).
    destruct (IH b Hb Hbn) as (c & ? & ? & ?).
    exists c. split; [done|]. split; [done|]. by eapply tc_l.
Qed.

Lemma edges_acyclic : acyclic nodes -> forall u, ~ tc (edge edges) u u.
Proof.
  intros Hacyc u Htc.
  destruct (tc_edge_target _ _ Htc) as (a & Ha & Hname).
  destruct (tc_edge_dep _ _ a Htc Ha Hname) as (b & Hb & Hbn & Hdep).
  rewrite <- Hname in Hbn.
  rewrite (NoDup_fmap_eq n_name nodes b a (wf_names _ _ _ _ wf) Hb Ha Hbn)
    in Hdep.
  exact (Hacyc a Hdep).
Qed.

Lemma rtc_dep_edge a b :
  rtc (dep nodes) a b -> rtc (edge edges) (n_name a) (n_name b).
Proof.
  induction 1 as [|a b c Hdep _ IH]; [apply rtc_refl|].
  eapply rtc_l; [|exact IH]. exists b. split; [|done]. by apply dep_successor.
Qed.

Lemma edges_no_empty_key : edges !! "" = None.
Proof.
  apply eq_None_not_Some. intros Hsome.
  apply (proj2 (all_edges_spec _ _ _ _ _ built)) in Hsome as (x & p & Hp & Hname).
  apply op_output_map_Some in Hp as [[-> _]|(nd & -> & Hnd & _)].
  - discriminate.
  - by destruct (wf_named _ _ _ _ wf nd Hnd).
Qed.

Lemma sort_from_edges :
  acyclic nodes -> all_fed container nodes inputs ->
  exists st,
    for_each (fun st nd_ => recursive_helper (enough_fuel nodes) edges nd_ st)
             (input_nodes container nodes inputs) initial_state = Ok st /\
    sorted_nodes st ≡ₚ nodes /\
    forall i j a b,
      sorted_nodes st !! i = Some a -> sorted_nodes st !! j = Some b ->
      dep nodes a b -> i < j.
Proof.
  intros Hacyc Hfed.
  set (V := ({["placeholder"]} ∪ list_to_set (n_name <$> nodes) : gset string)).
  pose proof (edges_acyclic Hacyc) as Hno_cycle.
  pose proof (wf_names _ _ _ _ wf) as Hnames.
  assert (HV : forall n, n ∈ nodes -> n_name n ∈ V).
  { intros n Hn. apply elem_of_union. right. apply elem_of_list_to_set.
    by apply list_elem_of_fmap_2. }
  destruct (roots_ok edges nodes V successors_are_nodes Hnames
              edges_no_empty_key Hno_cycle HV (enough_fuel nodes)
              (input_nodes container nodes inputs))
    with (st := initial_state)
    as (st & Hrun & Hinv & _ & Hroots).
  - unfold V, enough_fuel. rewrite size_union_alt, size_singleton.
    pose proof (subseteq_size
                  (list_to_set (n_name <$> nodes) ∖ {["placeholder"]})
                  (list_to_set (n_name <$> nodes) : gset string)) as Hle.
    rewrite size_list_to_set, length_fmap in Hle by done.
    specialize (Hle ltac:(set_solver)). lia.
  - intros r Hr. unfold input_nodes in Hr.
    apply elem_of_cons in Hr as [->|Hr].
    + split; [|unfold V; simpl; set_solver].
      simpl. intros n Hn. by destruct (wf_named _ _ _ _ wf n Hn).
    + apply list_elem_of_fmap in Hr as (nd & -> & Hnd).
      apply list_elem_of_filter in Hnd as [_ Hnd]. split; [done|].
      by apply HV.
  - reflexivity.
  - apply initial_state_inv.
  - exists st. split; [exact Hrun|]. split.
    + apply NoDup_Permutation.
      * exact (inv_nodup _ _ _ Hinv).
      * by apply NoDup_fmap_1 in Hnames.
      * intros n. split; [intros Hn; by apply (inv_sorted _ _ _ Hinv)|].
        intros Hn. apply (inv_visited _ _ _ Hinv); [done|].
        destruct (Hfed n Hn) as (r & Hr & Hentry & Hreach).
        apply (closed_reach edges nodes st (n_name r));
          [done | by apply rtc_dep_edge |].
        destruct (decide (n_op_type r = "Constant")) as [Hconst|Hconst].
        -- apply (Hroots (Op r)). unfold input_nodes.
           apply list_elem_of_further, list_elem_of_fmap_2.
           by apply list_elem_of_filter.
        -- apply (inv_closed _ _ _ Hinv "placeholder").
           ++ apply (Hroots (Dyn (placeholder container inputs))).
              apply list_elem_of_here.
           ++ by apply entry_successor.
    + intros i j a b Hi Hj Hdep.
      apply (ordered_index edges nodes st i j a b Hinv Hi Hj).
      by apply dep_successor.
Qed.
End sorted_graph.

(** Where the traversal does reach every node, it sorts. For an acyclic
    graph that is well formed (unique, non-empty node names other than the
    placeholder's; a producer for every non-empty input and every declared
    output; one writer per non-empty tensor name, which the graph does not
    supply as well) and in which every node can be reached from a [Constant]
    node or from a node reading a declared input or an initializer, the sort
    at the depth of [enough_fuel] returns a permutation of the node list in
    which every node comes after every node that produces one of its
    non-empty inputs. *)
Theorem topological_sort_of_fed_graph :
  forall (container : Container) (nodes : list Node)
         (inputs outputs : list ValueInfoProto),
    well_formed container nodes inputs outputs ->
    acyclic nodes ->
    all_fed container nodes inputs ->
    exists l,
      topological_sort container nodes inputs outputs = Ok l /\
      l ≡ₚ nodes /\
      forall i j a b,
        l !! i = Some a -> l !! j = Some b -> dep nodes a b -> i < j.
Proof.
  intros container nodes inputs outputs Hwf Hacyc Hfed.
  destruct (all_edges_Ok container nodes inputs outputs
              (wf_inputs _ _ _ _ Hwf) (wf_outputs _ _ _ _ Hwf)) as [edges He].
  destruct (sort_from_edges container nodes inputs outputs edges Hwf He
              Hacyc Hfed) as (st & Hrun & Hperm & Hord).
  exists (sorted_nodes st). split; [|by split].
  unfold topological_sort. rewrite He. unfold mbind, result_bind.
  by rewrite Hrun.
Qed.

(** ** The depth of the traversal *)

Lemma size_list_to_set_le (l : list string) :
  size (list_to_set l : gset string) <= length l.
Proof.
  induction l as [|x l IH].
  { rewrite list_to_set_nil, size_empty. simpl. lia. }
  rewrite list_to_set_cons, size_union_alt, size_singleton. simpl.
  pose proof (subseteq_size (list_to_set l ∖ {[x]})
                            (list_to_set l : gset string)) as Hle.
  specialize (Hle ltac:(set_solver)). lia.
Qed.

Section fuel_bound.
Context (edges : gmap string (list Node)) (V : gset string).
Hypothesis successors_in_V :
  forall u s, s ∈ successors_of edges u -> n_name s ∈ V.

Lemma recursive_helper_fuel (fuel : nat) :
  forall (v : vertex) (st : dfs_state),
    v_name v ∈ V ->
    unfinished_nodes st ⊆ V ->
    size (V ∖ unfinished_nodes st) < fuel ->
    spares_fuel (recursive_helper fuel edges v st) (unfinished_nodes st).
Proof.
  induction fuel as [|fuel IH]; intros v st HvV HU Hsize; [lia|].
  simpl. destruct (decide (v_name v ∈ visited st)); [done|].
  destruct (decide (v_name v ∈ unfinished_nodes st)) as [|Hnstk]; [done|].
  set (st1 := {| visited := visited st; sorted_nodes := sorted_nodes st;
                 unfinished_nodes := unfinished_nodes st ∪ {[v_name v]} |}).
  assert (Hloop : forall ss st1',
             (forall s, s ∈ ss -> s ∈ successors_of edges (v_name v)) ->
             unfinished_nodes st1' = unfinished_nodes st1 ->
             spares_fuel
               (for_each (fun s successor =>
                            recursive_helper fuel edges (Op successor) s)
                         ss st1')
               (unfinished_nodes st1)).
  { induction ss as [|s ss IHss]; intros st1' Hss Hunf; simpl; [done|].
    pose proof (IH (Op s) st1') as Hcall.
    destruct (recursive_helper fuel edges (Op s) st1') as [st1''|e]; simpl.
    - apply IHss.
      + intros s' Hs'. by apply Hss, list_elem_of_further.
      + rewrite <- Hunf. apply Hcall.
        * simpl. apply (successors_in_V (v_name v)), Hss, list_elem_of_here.
        * rewrite Hunf. simpl. set_solver.
        * rewrite Hunf. simpl.
          pose proof (size_difference_singleton V (unfinished_nodes st)
                        (v_name v) HvV Hnstk). lia.
    - apply Hcall.
      + simpl. apply (successors_in_V (v_name v)), Hss, list_elem_of_here.
      + rewrite Hunf. simpl. set_solver.
      + rewrite Hunf. simpl.
        pose proof (size_difference_singleton V (unfinished_nodes st)
                      (v_name v) HvV Hnstk). lia. }
  assert (Hbody : spares_fuel
            match edges !! v_name v with
            | Some successors =>
                if decide (v_name v = "")
                then Raise (AssertionError unique_name_msg)
                else for_each
                       (fun s successor =>
                          recursive_helper fuel edges (Op successor) s)
                       successors st1
            | None => Ok st1
            end (unfinished_nodes st1)).
  { destruct (edges !! v_name v) as [successors|] eqn:Hlook; [|done].
    destruct (decide (v_name v = "")); [done|].
    apply Hloop; [|done]. intros s Hs. unfold successors_of.
    by rewrite Hlook. }
  destruct (match edges !! v_name v with Some _ => _ | None => _ end)
    as [st2|e]; simpl; [|done].
  simpl in Hbody. destruct (decide (v_name v ∈ unfinished_nodes st2)); [|done].
  simpl. rewrite Hbody. set_solver.
Qed.
Lemma roots_fuel (fuel : nat) (roots : list vertex) :
  size V < fuel ->
  forall st,
    (forall r, r ∈ roots -> v_name r ∈ V) ->
    unfinished_nodes st = ∅ ->
    spares_fuel
      (for_each (fun st nd_ => recursive_helper fuel edges nd_ st) roots st)
      ∅.
Proof.
  intros Hsize. induction roots as [|r roots IH]; intros st Hr Hunf;
    [done|].
  pose proof (recursive_helper_fuel fuel r st) as Hcall.
  rewrite Hunf in Hcall.
  replace (V ∖ ∅) with V in Hcall by set_solver.
  specialize (Hcall (Hr r (list_elem_of_here _ _)) ltac:(set_solver) Hsize).
  change (spares_fuel
            (st1 ← recursive_helper fuel edges r st;
             for_each (fun st nd_ => recursive_helper fuel edges nd_ st)
                      roots st1) ∅).
  destruct (recursive_helper fuel edges r st) as [st1|e]; [|exact Hcall].
  apply IH; [|exact Hcall]. intros r' Hr'. by apply Hr, list_elem_of_further.
Qed.
End fuel_bound.

Lemma all_edges_no_recursion_error container nodes inputs outputs :
  all_edges container nodes inputs outputs <> Raise RecursionError.
Proof.
  unfold all_edges. intros H.
  destruct (build_edges _ nodes) as [e|err] eqn:Hbuild; simpl in H.
  - apply for_each_Raise_inv in H as (y & s & _ & Hadd).
    unfold add_output in Hadd. by destruct (_ !! vi_name y).
  - injection H as ->. unfold build_edges in Hbuild.
    apply for_each_Raise_inv in Hbuild as (op & s1 & _ & Hinner).
    apply for_each_Raise_inv in Hinner as (x & s2 & _ & Hadd).
    by apply add_edge_Raise in Hadd as (_ & _ & ?).
Qed.

(** A traversal needs no more depth than [enough_fuel] allows, whatever the
    graph: the nested calls follow a path of distinct vertices. Whether that
    depth is within the interpreter's limit is a matter of the length of the
    graph's dependency chains, which this development leaves aside. *)
Lemma topological_sort_fuel container nodes inputs outputs :
  topological_sort container nodes inputs outputs <> Raise RecursionError.
Proof.
  unfold topological_sort.
  destruct (all_edges container nodes inputs outputs) as [edges|e] eqn:Hedges.
  2:{ unfold mbind, result_bind. intros [= ->].
      by apply all_edges_no_recursion_error in Hedges. }
  unfold mbind, result_bind.
  set (V := ({["placeholder"]} ∪ list_to_set (n_name <$> nodes) : gset string)).
  assert (HV : forall n, n ∈ nodes -> n_name n ∈ V).
  { intros n Hn. apply elem_of_union. right. apply elem_of_list_to_set.
    by apply list_elem_of_fmap_2. }
  assert (HsV : forall u s, s ∈ successors_of edges u -> n_name s ∈ V).
  { intros u s Hs. apply HV.
    by apply (proj1 (all_edges_spec _ _ _ _ _ Hedges)) in Hs as [? _]. }
  assert (Hsize : size V < enough_fuel nodes).
  { unfold V, enough_fuel. rewrite size_union_alt, size_singleton.
    pose proof (subseteq_size
                  (list_to_set (n_name <$> nodes) ∖ {["placeholder"]})
                  (list_to_set (n_name <$> nodes) : gset string)) as Hle.
    specialize (Hle ltac:(set_solver)).
    pose proof (size_list_to_set_le (n_name <$> nodes)) as Hlen.
    rewrite length_fmap in Hlen. lia. }
  pose proof (roots_fuel edges V HsV (enough_fuel nodes)
                (input_nodes container nodes inputs) Hsize) as Hroots.
  specialize (Hroots initial_state).
  destruct (for_each _ (input_nodes container nodes inputs) initial_state)
    as [st|e]; [discriminate|].
  intros [= ->]. apply Hroots; [|done|done].
  intros r Hr. unfold input_nodes in Hr. apply elem_of_cons in Hr as [->|Hr].
  - unfold V. simpl. set_solver.
  - apply list_elem_of_fmap in Hr as (nd & -> & Hnd).
    apply list_elem_of_filter in Hnd as [_ Hnd]. by apply HV.
Qed.

(** ** Examples *)

Lemma ranked_acyclic (nodes : list Node) (rk : Node -> nat) :
  (forall a b, dep nodes a b -> rk a < rk b) -> acyclic nodes.
Proof.
  intros Hrk a Htc.
  assert (Hlt : forall x y, tc (dep nodes) x y -> rk x < rk y).
  { induction 1 as [x y H|x y z H _ IH]; [by apply Hrk|].
    apply Hrk in H. lia. }
  apply Hlt in Htc. lia.
Qed.

Ltac list_cases H :=
  repeat (apply elem_of_cons in H as [H|H]; [try subst|]);
  try (by apply elem_of_nil in H).

Lemma chain_dep a b : dep chain_nodes a b -> a = chain_A /\ b = chain_B.
Proof.
  intros (Ha & Hb & x & Hx & Hout & Hin).
  list_cases Ha; list_cases Hb; simpl in *; list_cases Hout; list_cases Hin;
    try discriminate; done.
Qed.

Lemma chain_acyclic : acyclic chain_nodes.
Proof.
  apply (ranked_acyclic _ (fun n => if decide (n_name n = "A") then 0 else 1)).
  intros a b [-> ->]%chain_dep. vm_compute. lia.
Qed.

Lemma chain_well_formed :
  well_formed (bare_container []) chain_nodes [float_info "x"] [float_info "b"].
Proof.
  constructor.
  - simpl. apply NoDup_cons.
    split; [rewrite list_elem_of_singleton; discriminate | apply NoDup_singleton].
  - intros nd Hnd. list_cases Hnd; split; discriminate.
  - intros nd x Hnd Hx _. list_cases Hnd; simpl in Hx; list_cases Hx.
    + right. exists chain_A. split; [|apply list_elem_of_here].
      apply list_elem_of_further, list_elem_of_here.
    + left. apply list_elem_of_here.
  - intros y Hy. list_cases Hy. right. exists chain_B.
    split; apply list_elem_of_here.
  - intros a b x Ha Hb _ Hxa Hxb.
    list_cases Ha; list_cases Hb; simpl in *; list_cases Hxa; list_cases Hxb;
      try discriminate; done.
  - intros a x Ha _ Hx Hext. unfold external_names in Hext. simpl in Hext.
    list_cases Hext. list_cases Ha; simpl in Hx; list_cases Hx; discriminate.
Qed.

Lemma chain_all_fed : all_fed (bare_container []) chain_nodes [float_info "x"].
Proof.
  assert (HA : chain_A ∈ chain_nodes)
    by apply list_elem_of_further, list_elem_of_here.
  assert (Hentry : entry (bare_container []) [float_info "x"] chain_A).
  { right. exists "x". split; [discriminate|].
    split; apply list_elem_of_here. }
  intros nd Hnd. exists chain_A. split; [exact HA|]. split; [exact Hentry|].
  list_cases Hnd.
  - apply rtc_once. split; [exact HA|]. split; [apply list_elem_of_here|].
    exists "a". split; [discriminate|]. split; apply list_elem_of_here.
  - apply rtc_refl.
Qed.

Lemma lone_acyclic : acyclic lone_nodes.
Proof.
  apply (ranked_acyclic _ (fun _ => 0)).
  intros a b (_ & Hb & x & _ & _ & Hin). list_cases Hb.
  by apply elem_of_nil in Hin.
Qed.

Lemma lone_well_formed :
  well_formed (bare_container []) lone_nodes [] [float_info "y"].
Proof.
  constructor.
  - apply NoDup_singleton.
  - intros nd Hnd. list_cases Hnd; split; discriminate.
  - intros nd x Hnd Hx _. list_cases Hnd. by apply elem_of_nil in Hx.
  - intros y Hy. list_cases Hy. right. eexists.
    split; apply list_elem_of_here.
  - intros a b x Ha Hb _ _ _. list_cases Ha. by list_cases Hb.
  - intros a x _ _ _ Hext. by apply elem_of_nil in Hext.
Qed.

(** C1. The claim does not hold of the code. The graph with the single node
    [noise], which reads nothing and writes the declared output [y], is
    acyclic and meets every precondition of the sort: its node names are
    unique and non-empty, and every input and declared output has a
    producer. The sort registers [noise] in [edges] as the producer of [y],
    but starts the traversal at the placeholder and at [Constant] nodes only,
    so [noise] is never visited: the result is the empty list, which is not a
    permutation of the node list. *)
Theorem C1_unreachable_node_is_dropped :
  well_formed (bare_container []) lone_nodes [] [float_info "y"] /\
  acyclic lone_nodes /\
  all_edges (bare_container []) lone_nodes [] [float_info "y"]
  = Ok {[ "noise" := [] ]} /\
  topological_sort (bare_container []) lone_nodes [] [float_info "y"] = Ok [] /\
  ~ (exists l,
        topological_sort (bare_container []) lone_nodes [] [float_info "y"]
        = Ok l /\ l ≡ₚ lone_nodes).
Proof.
  split; [exact lone_well_formed|]. split; [exact lone_acyclic|].
  split; [by vm_compute|]. split; [by vm_compute|].
  intros (l & Hl & Hperm).
  assert (l = []) as -> by (vm_compute in Hl; congruence).
  by apply Permutation_nil_cons in Hperm.
Qed.

Lemma sort_of_chain :
  exists l,
    topological_sort (bare_container []) chain_nodes
                     [float_info "x"] [float_info "b"] = Ok l /\
    l ≡ₚ chain_nodes.
Proof.
  destruct (topological_sort_of_fed_graph (bare_container []) chain_nodes
              [float_info "x"] [float_info "b"]
              chain_well_formed chain_acyclic chain_all_fed)
    as (l & Hsort & Hperm & _).
  exists l. by split.
Qed.

(** C2. Two nodes that consume each other's output, with no other
    producer, form a cycle, yet the sort returns the empty list instead of
    raising the cycle error: the traversal only starts at the placeholder and
    at [Constant] nodes and never reaches them. *)
Theorem C2_unreachable_cycle_goes_unnoticed :
  tc (dep cycle_nodes) cycle_A cycle_A /\
  topological_sort (bare_container []) cycle_nodes [] [] = Ok [].
Proof.
  split; [|by vm_compute].
  assert (HA : cycle_A ∈ cycle_nodes) by apply list_elem_of_here.
  assert (HB : cycle_B ∈ cycle_nodes)
    by apply list_elem_of_further, list_elem_of_here.
  apply (tc_l _ _ cycle_B).
  - split; [exact HA|]. split; [exact HB|]. exists "a".
    split; [discriminate|]. split; apply list_elem_of_here.
  - apply tc_once. split; [exact HB|]. split; [exact HA|]. exists "b".
    split; [discriminate|]. split; apply list_elem_of_here.
Qed.

(** ** Names under a prefix *)

Lemma merge_name_inj (prefix a b : string) :
  merge_name prefix a = merge_name prefix b -> a = b.
Proof.
  unfold merge_name. intros H. apply String.app_inj in H. by injection H.
Qed.

Lemma pretty_N_char_free (x : N) : pretty_N_char x <> "_"%char.
Proof. unfold pretty_N_char. by repeat case_match. Qed.

Lemma pretty_N_go_free (x : N) (s : string) :
  free_of "_"%char s -> free_of "_"%char (pretty_N_go x s).
Proof.
  revert s. induction (N.lt_wf_0 x) as [x _ IH]; intros s Hs.
  assert (x = 0 \/ 0 < x)%N as [->|Hpos] by lia.
  - by rewrite pretty_N_go_0.
  - rewrite pretty_N_go_step by done. apply IH.
    + by apply N.div_lt.
    + simpl. split; [apply pretty_N_char_free | exact Hs].
Qed.

Lemma pretty_nat_free (n : nat) : free_of "_"%char (pretty n).
Proof.
  unfold pretty, pretty_nat, pretty, pretty_N.
  destruct (decide (N.of_nat n = 0%N)); [simpl; by split|].
  by apply pretty_N_go_free.
Qed.

Lemma prefix_of_free (i : nat) : free_of "_"%char (prefix_of i).
Proof.
  unfold prefix_of. simpl. split; [discriminate | apply pretty_nat_free].
Qed.

Lemma separator_inj (d1 d2 a b : string) :
  free_of "_"%char d1 -> free_of "_"%char d2 ->
  merge_name d1 a = merge_name d2 b -> d1 = d2 /\ a = b.
Proof.
  unfold merge_name. revert d2.
  induction d1 as [|c1 d1 IH]; intros [|c2 d2]; simpl.
  - intros _ _ Heq. by simplify_eq/=.
  - intros _ [Hc _] Heq. by simplify_eq/=.
  - intros [Hc _] _ Heq. by simplify_eq/=.
  - intros [_ H1] [_ H2] Heq. injection Heq as -> Heq.
    destruct (IH d2 H1 H2 Heq) as [-> ->]. done.
Qed.

(** X1. Names that [join_models] prefixes for two models coincide only when
    the models have the same position and the original names are equal: the
    prefixes [g1], [g2], ... never let names of different models collide. *)
Theorem prefixes_keep_models_apart :
  forall (i j : nat) (a b : string),
    merge_name (prefix_of i) a = merge_name (prefix_of j) b -> i = j /\ a = b.
Proof.
  intros i j a b H.
  apply separator_inj in H as [Hp ->]; [|apply prefix_of_free..].
  split; [|done]. unfold prefix_of in Hp. apply String.app_inj in Hp.
  apply (inj (pretty : nat -> string)) in Hp. lia.
Qed.

Section rename_iter.
Context {A : Type} `{Named A}.
Hypothesis get_set_name : forall (s : string) (a : A), get_name (set_name s a) = s.

Lemma rename_iter_names (l : list A) (p : string) (inplace : bool) :
  get_name <$> (_rename_iter l p inplace).2 = merge_name p <$> (get_name <$> l).
Proof.
  unfold _rename_iter. simpl. rewrite <- !list_fmap_compose.
  apply list_fmap_ext. intros i a _. simpl. apply get_set_name.
Qed.

(** X2. [_rename_iter] prefixes every name, and names that were pairwise
    distinct stay pairwise distinct. *)
Theorem rename_iter_keeps_names_apart :
  forall (l : list A) (p : string) (inplace : bool),
    NoDup (get_name <$> l) ->
    NoDup (get_name <$> (_rename_iter l p inplace).2) /\
    get_name <$> (_rename_iter l p inplace).2
    = merge_name p <$> (get_name <$> l).
Proof.
  intros l p inplace Hnd. split; [|apply rename_iter_names].
  rewrite rename_iter_names. apply NoDup_fmap_2; [|exact Hnd].
  intros a b. apply merge_name_inj.
Qed.
End rename_iter.

Lemma rename_iter_keeps_names_apart_witness :
  NoDup (get_name <$> (_rename_iter [weight; {| t_name := "b"; t_data := [] |}]
                                    "g1" false).2).
Proof.
  apply (@rename_iter_keeps_names_apart TensorProto tensor_named
           (fun _ _ => eq_refl)
           [weight; {| t_name := "b"; t_data := [] |}] "g1" false).
  simpl. apply NoDup_cons.
  split; [rewrite list_elem_of_singleton; discriminate | apply NoDup_singleton].
Defined.

(** X3. The renamed nodes of a graph have pairwise distinct names provided
    the non-empty node names are pairwise distinct and none of them is the
    name [op<i>] that the pass makes up for an unnamed node at position
    [i]. *)
Theorem renamed_node_names_unique :
  forall (graph : Graph) (p : string) (gc : Pools),
    (forall i j a b,
        g_node graph !! i = Some a -> g_node graph !! j = Some b ->
        n_name a <> "" -> n_name a = n_name b -> i = j) ->
    (forall i j a b,
        g_node graph !! i = Some a -> g_node graph !! j = Some b ->
        n_name a = "" -> n_name b <> "op" +:+ pretty i) ->
    NoDup (n_name <$> (_rename_graph graph p gc).2).
Proof.
  intros graph p gc Hnamed Hsynth. apply NoDup_alt. intros i j x Hi Hj.
  rewrite list_lookup_fmap, rename_graph_lookup in Hi, Hj.
  destruct (g_node graph !! i) as [a|] eqn:Ha; [|discriminate].
  destruct (g_node graph !! j) as [b|] eqn:Hb; [|discriminate].
  change (Some (n_name (io_rename a p i)) = Some x) in Hi.
  change (Some (n_name (io_rename b p j)) = Some x) in Hj.
  rewrite <- Hj in Hi. clear Hj x.
  injection Hi as Hi. simpl in Hi.
  destruct (truthy (n_name a)) eqn:Hta, (truthy (n_name b)) eqn:Htb;
    apply merge_name_inj in Hi.
  - apply truthy_true in Hta. by apply (Hnamed i j a b).
  - apply truthy_false in Htb. by destruct (Hsynth j i b a).
  - apply truthy_false in Hta. by destruct (Hsynth i j a b).
  - apply String.app_inj in Hi.
    by apply (inj (pretty : nat -> string)) in Hi.
Qed.

Lemma renamed_node_names_unique_witness :
  NoDup (n_name <$> (_rename_graph
                       (mkGraph [plain_node "" "Relu" ["x"] ["t"];
                                 plain_node "" "Sigmoid" ["t"] ["y"]]
                                "g" [] [] [] [])
                       "m" (mkPools [] [])).2).
Proof.
  apply renamed_node_names_unique.
  - intros [|[|i]] [|[|j]] a b Ha Hb Hne Heq; simpl in *;
      try discriminate; try done; injection Ha as <-; by destruct Hne.
  - intros [|[|i]] [|[|j]] a b Ha Hb He; simpl in *; try discriminate;
      injection Hb as <-; discriminate.
Defined.

Lemma renamed_slot (p x' : string) (l : list string) :
  x' <> "" ->
  x' ∈ (fun nm_ => if truthy nm_ then merge_name p nm_ else "") <$> l <->
  exists x, x <> "" /\ x ∈ l /\ x' = merge_name p x.
Proof.
  intros Hx'. rewrite list_elem_of_fmap. split.
  - intros (x & Heq & Hx). destruct (truthy x) eqn:Ht; [|done].
    exists x. split; [by apply truthy_true|done].
  - intros (x & Hne & Hx & ->). exists x. split; [|done].
    apply truthy_true in Hne. by rewrite Hne.
Qed.

(** X4. The renaming pass keeps the data dependencies: one node of the
    graph feeds another exactly when its renamed copy feeds the other's
    renamed copy. *)
Theorem renaming_preserves_dependencies :
  forall (graph : Graph) (p : string) (gc : Pools) (i j : nat) (a b : Node),
    g_node graph !! i = Some a -> g_node graph !! j = Some b ->
    (dep (g_node graph) a b <->
     dep (_rename_graph graph p gc).2 (io_rename a p i) (io_rename b p j)).
Proof.
  intros graph p gc i j a b Ha Hb.
  assert (Ha' : io_rename a p i ∈ (_rename_graph graph p gc).2).
  { apply list_elem_of_lookup. exists i. by rewrite rename_graph_lookup, Ha. }
  assert (Hb' : io_rename b p j ∈ (_rename_graph graph p gc).2).
  { apply list_elem_of_lookup. exists j. by rewrite rename_graph_lookup, Hb. }
  unfold dep. split.
  - intros (_ & _ & x & Hx & Hout & Hin). split; [done|]. split; [done|].
    exists (merge_name p x). split; [apply merge_name_nonempty|].
    split; simpl; (apply renamed_slot; [apply merge_name_nonempty|]);
      by exists x.
  - intros (_ & _ & x' & Hx' & Hout & Hin).
    split; [by apply list_elem_of_lookup_2 in Ha|].
    split; [by apply list_elem_of_lookup_2 in Hb|].
    simpl in Hout, Hin.
    apply renamed_slot in Hout as (x & Hx & Hout & ->); [|done].
    apply renamed_slot in Hin as (y & Hy & Hin & Heq); [|done].
    apply merge_name_inj in Heq as <-. by exists x.
Qed.

(** ** Undeclared outputs and producer precedence *)

Lemma build_edges_Ok container nodes inputs :
  (forall nd_ x, nd_ ∈ nodes -> x ∈ n_input nd_ -> x <> "" ->
                 has_producer container nodes inputs x) ->
  exists edges,
    build_edges (op_output_map container nodes inputs) nodes = Ok edges.
Proof.
  intros Hin. unfold build_edges. apply for_each_Ok_intro.
  intros op s Hop. apply for_each_Ok_intro. intros x s' Hx.
  unfold add_edge. destruct (decide (x = "")); [by eexists|].
  destruct (proj2 (op_output_map_is_Some container nodes inputs x)
              (Hin op x Hop Hx n)) as [p ->]. by eexists.
Qed.

(** X5. When every non-empty node input has a producer but some declared
    output has none, the sort raises [KeyError] on the name of such an
    output: the lookup in the loop over the outputs is not guarded. *)
Theorem undeclared_output_key_error :
  forall (container : Container) (nodes : list Node)
         (inputs outputs : list ValueInfoProto),
    (forall nd_ x, nd_ ∈ nodes -> x ∈ n_input nd_ -> x <> "" ->
                   has_producer container nodes inputs x) ->
    (exists y_, y_ ∈ outputs /\
                ~ has_producer container nodes inputs (vi_name y_)) ->
    exists y_,
      y_ ∈ outputs /\ ~ has_producer container nodes inputs (vi_name y_) /\
      topological_sort container nodes inputs outputs
      = Raise (KeyError (vi_name y_)).
Proof.
  intros container nodes inputs outputs Hin (y & Hy & Hnone).
  destruct (build_edges_Ok container nodes inputs Hin) as [e He].
  unfold topological_sort, all_edges. rewrite He. unfold mbind, result_bind.
  destruct (for_each _ outputs e) as [e'|err] eqn:Hout.
  - exfalso. destruct (for_each_Ok_inv _ _ _ _ Hout y Hy) as (s1 & s2 & Hadd).
    unfold add_output in Hadd.
    destruct (op_output_map container nodes inputs !! vi_name y) eqn:Hp;
      [|discriminate].
    apply Hnone, op_output_map_is_Some. by eexists.
  - apply for_each_Raise_inv in Hout as (y' & s & Hy' & Hadd).
    unfold add_output in Hadd.
    destruct (op_output_map container nodes inputs !! vi_name y') eqn:Hp;
      [discriminate|].
    injection Hadd as <-. exists y'. split; [done|]. split; [|done].
    by apply op_output_map_None.
Qed.

Lemma undeclared_output_key_error_witness :
  exists y_,
    topological_sort (bare_container []) chain_nodes
                     [float_info "x"] [float_info "b"; float_info "c"]
    = Raise (KeyError (vi_name y_)).
Proof.
  destruct (undeclared_output_key_error (bare_container []) chain_nodes
              [float_info "x"] [float_info "b"; float_info "c"])
    as (y & _ & _ & Hy).
  - exact (wf_inputs _ _ _ _ chain_well_formed).
  - exists (float_info "c").
    split; [apply list_elem_of_further, list_elem_of_here|].
    unfold has_producer, external_names. simpl.
    intros [H|(nd & Hnd & H)].
    + apply list_elem_of_singleton in H. discriminate.
    + repeat (apply elem_of_cons in Hnd as [->|Hnd];
              [apply list_elem_of_singleton in H; discriminate|]).
      by apply elem_of_nil in Hnd.
  - by exists y.
Defined.

Lemma producer_fold_last (m0 : gmap string vertex) (vs1 vs2 : list vertex)
    (v : vertex) (x : string) :
  x ∈ v_output v ->
  (forall v', v' ∈ vs2 -> x ∉ v_output v') ->
  foldl (fun m nd_ => foldl (fun m ky_ => <[ky_ := nd_]> m) m (v_output nd_))
        m0 (vs1 ++ v :: vs2) !! x = Some v.
Proof.
  intros Hx. induction vs2 as [|w vs2 IH] using rev_ind; intros Hlater.
  - rewrite (index_snoc m0 vs1 v x). by rewrite decide_True.
  - replace (vs1 ++ v :: vs2 ++ [w]) with ((vs1 ++ v :: vs2) ++ [w])
      by (by rewrite <- app_assoc).
    rewrite index_snoc. rewrite decide_False.
    + apply IH. intros v' Hv'. apply Hlater, elem_of_app. by left.
    + apply Hlater, elem_of_app. right. apply list_elem_of_here.
Qed.

(** X6. A tensor name that is a declared input or an initializer is
    recorded as produced by the placeholder, whatever other nodes write it,
    unless a [Constant] node writes it: the placeholder is entered in the
    producer index after the nodes and before the [Constant] nodes. *)
Theorem declared_name_shadows_node_output :
  forall (container : Container) (nodes : list Node)
         (inputs : list ValueInfoProto) (x : string),
    x ∈ external_names container inputs ->
    (forall nd_, nd_ ∈ nodes -> n_op_type nd_ = "Constant" ->
                 x ∉ n_output nd_) ->
    op_output_map container nodes inputs !! x
    = Some (Dyn (placeholder container inputs)).
Proof.
  intros container nodes inputs x Hext Hconst.
  unfold op_output_map, input_nodes. apply producer_fold_last; [exact Hext|].
  intros v' Hv'. apply list_elem_of_fmap in Hv' as (nd & -> & Hnd).
  apply list_elem_of_filter in Hnd as [Hc Hnd]. simpl. by apply Hconst.
Qed.

Lemma declared_name_shadows_node_output_witness :
  op_output_map (bare_container []) [plain_node "A" "Relu" ["x"] ["x"]]
                [float_info "x"] !! "x"
  = Some (Dyn (placeholder (bare_container []) [float_info "x"])).
Proof.
  apply declared_name_shadows_node_output.
  - apply list_elem_of_here.
  - intros nd Hnd Hc. apply list_elem_of_singleton in Hnd as ->. discriminate.
Defined.

(** ** What the sort returns on any graph *)
Section soundness.
Context (edges : gmap string (list Node)) (nodes : list Node).
Hypothesis successors_in_nodes :
  forall u s, s ∈ successors_of edges u -> s ∈ nodes.

Lemma finish_sound (v : vertex) (st2 : dfs_state) :
  vertex_src nodes v ->
  sound_inv edges nodes st2 ->
  v_name v ∈ unfinished_nodes st2 ->
  (forall s, s ∈ successors_of edges (v_name v) -> n_name s ∈ visited st2) ->
  sound_inv edges nodes
    {| visited := visited st2 ∪ {[v_name v]};
       sorted_nodes := match v with
                       | Dyn _ => sorted_nodes st2
                       | Op nd => nd :: sorted_nodes st2
                       end;
       unfinished_nodes := unfinished_nodes st2 ∖ {[v_name v]} |}.
Proof.
  intros Hv [Hsorted Hnodup Hord Hvis Hdisj] Hstk Hsucc.
  assert (Hfresh : v_name v ∉ visited st2).
  { intros Hin. by apply (Hdisj _ Hin). }
  assert (Hdisj' : forall u, u ∈ visited st2 ∪ {[v_name v]} ->
                             u ∉ unfinished_nodes st2 ∖ {[v_name v]}).
  { intros u Hu. apply elem_of_union in Hu as [Hu|Hu].
    - specialize (Hdisj u Hu). set_solver.
    - set_solver. }
  destruct v as [d|nd]; simpl in *; constructor; simpl; try done.
  - intros n Hn. destruct (Hsorted n Hn). split; [done|set_solver].
  - intros u Hu. apply elem_of_union in Hu as [Hu|Hu]; [by apply Hvis|].
    apply elem_of_singleton in Hu as ->. by right.
  - intros n Hn. apply elem_of_cons in Hn as [->|Hn].
    + split; [exact Hv | set_solver].
    + destruct (Hsorted n Hn). split; [done | set_solver].
  - apply NoDup_cons. split; [|exact Hnodup].
    intros Hin. apply list_elem_of_fmap in Hin as (n & Heq & Hn).
    destruct (Hsorted n Hn) as [_ Hnv]. rewrite <- Heq in Hnv. done.
  - intros l1 a l2 Heq s Hs. destruct l1 as [|b l1]; simpl in Heq.
    + injection Heq as <- <-. apply Hvis. by apply Hsucc.
    + injection Heq as _ Heq. by apply (Hord l1 a l2).
  - intros u Hu. apply elem_of_union in Hu as [Hu|Hu].
    + destruct (Hvis u Hu) as [?|?]; [left|by right].
      by apply list_elem_of_further.
    + apply elem_of_singleton in Hu as ->. left. apply list_elem_of_here.
Qed.

Lemma recursive_helper_sound (fuel : nat) :
  forall (v : vertex) (st st' : dfs_state),
    recursive_helper fuel edges v st = Ok st' ->
    vertex_src nodes v ->
    sound_inv edges nodes st ->
    sound_inv edges nodes st' /\
    unfinished_nodes st' = unfinished_nodes st /\
    visited st ⊆ visited st' /\
    v_name v ∈ visited st'.
Proof.
  induction fuel as [|fuel IH]; intros v st st' Hrun Hv Hinv; [discriminate|].
  simpl in Hrun. destruct (decide (v_name v ∈ visited st)) as [Hvisited|Hnew].
  { injection Hrun as <-. done. }
  destruct (decide (v_name v ∈ unfinished_nodes st)) as [|Hnstk];
    [discriminate|].
  set (st1 := {| visited := visited st; sorted_nodes := sorted_nodes st;
                 unfinished_nodes := unfinished_nodes st ∪ {[v_name v]} |})
    in Hrun.
  assert (Hinv1 : sound_inv edges nodes st1).
  { destruct Hinv as [? ? ? ? Hdisj]. constructor; simpl; try done.
    intros u Hu. specialize (Hdisj u Hu). set_solver. }
  assert (Hloop : forall ss sa sb,
             for_each (fun s successor =>
                         recursive_helper fuel edges (Op successor) s)
                      ss sa = Ok sb ->
             (forall s, s ∈ ss -> s ∈ nodes) ->
             sound_inv edges nodes sa ->
             sound_inv edges nodes sb /\
             unfinished_nodes sb = unfinished_nodes sa /\
             visited sa ⊆ visited sb /\
             (forall s, s ∈ ss -> n_name s ∈ visited sb)).
  { induction ss as [|s ss IHss]; intros sa sb Hfor Hss Hinva; simpl in Hfor.
    - injection Hfor as <-. split; [done|]. split; [done|]. split; [done|].
      intros s Hs. by apply elem_of_nil in Hs.
    - destruct (recursive_helper fuel edges (Op s) sa) as [sm|] eqn:Hcall;
        [|discriminate].
      simpl in Hfor.
      apply IH in Hcall as (Hinvm & Hunfm & Hmonom & Hsm); [|
        simpl; apply Hss, list_elem_of_here | done].
      apply IHss in Hfor as (Hinvb & Hunfb & Hmonob & Hall); [| |done].
      2:{ intros s' Hs'. by apply Hss, list_elem_of_further. }
      split; [done|]. split; [congruence|]. split; [set_solver|].
      intros s' Hs'. apply elem_of_cons in Hs' as [->|Hs'].
      + by apply Hmonob.
      + by apply Hall. }
  assert (Hbody : exists st2,
             match edges !! v_name v with
             | Some successors =>
                 if decide (v_name v = "")
                 then Raise (AssertionError unique_name_msg)
                 else for_each
                        (fun s successor =>
                           recursive_helper fuel edges (Op successor) s)
                        successors st1
             | None => Ok st1
             end = Ok st2 /\
             sound_inv edges nodes st2 /\
             unfinished_nodes st2 = unfinished_nodes st1 /\
             visited st ⊆ visited st2 /\
             (forall s, s ∈ successors_of edges (v_name v) ->
                        n_name s ∈ visited st2)).
  { destruct (edges !! v_name v) as [successors|] eqn:Hlook.
    - destruct (decide (v_name v = "")); [discriminate|].
      destruct (for_each _ successors st1) as [st2|] eqn:Hfor; [|discriminate].
      exists st2. split; [done|].
      apply Hloop in Hfor as (? & ? & ? & Hall); [| |done].
      2:{ intros s Hs. apply (successors_in_nodes (v_name v)).
          unfold successors_of. by rewrite Hlook. }
      split; [done|]. split; [done|]. split; [done|].
      unfold successors_of. by rewrite Hlook.
    - exists st1. split; [done|]. split; [done|]. split; [done|].
      split; [done|]. unfold successors_of. rewrite Hlook. simpl.
      intros s Hs. by apply elem_of_nil in Hs. }
  destruct Hbody as (st2 & Heq & Hinv2 & Hunf2 & Hmono & Hsucc).
  rewrite Heq in Hrun. simpl in Hrun.
  destruct (decide (v_name v ∈ unfinished_nodes st2)) as [Hin|];
    [|discriminate].
  injection Hrun as <-. split; [by apply finish_sound|].
  split; [simpl; rewrite Hunf2; simpl; set_solver|].
  split; simpl; set_solver.
Qed.

Lemma roots_sound (fuel : nat) (roots : list vertex) :
  forall st st',
    for_each (fun st nd_ => recursive_helper fuel edges nd_ st) roots st
    = Ok st' ->
    (forall r, r ∈ roots -> vertex_src nodes r) ->
    sound_inv edges nodes st ->
    sound_inv edges nodes st'.
Proof.
  induction roots as [|r roots IH]; intros st st' Hrun Hroots Hinv;
    simpl in Hrun.
  - by injection Hrun as <-.
  - destruct (recursive_helper fuel edges r st) as [st1|] eqn:Hcall;
      [|discriminate].
    simpl in Hrun.
    apply recursive_helper_sound in Hcall as (Hinv1 & _);
      [|apply Hroots, list_elem_of_here | done].
    apply (IH st1 st' Hrun); [|done].
    intros r' Hr'. by apply Hroots, list_elem_of_further.
Qed.
End soundness.

Lemma initial_state_sound edges nodes : sound_inv edges nodes initial_state.
Proof.
  constructor; simpl.
  - intros n Hn. by apply elem_of_nil in Hn.
  - apply NoDup_nil_2.
  - intros [|b l1] a l2 Heq; discriminate.
  - intros u Hu. by apply not_elem_of_empty in Hu.
  - intros u Hu. by apply not_elem_of_empty in Hu.
Qed.

Lemma topological_sort_run container nodes inputs outputs l :
  topological_sort container nodes inputs outputs = Ok l ->
  exists edges st,
    all_edges container nodes inputs outputs = Ok edges /\
    sorted_nodes st = l /\ sound_inv edges nodes st.
Proof.
  intros Hsort. unfold topological_sort in Hsort.
  destruct (all_edges container nodes inputs outputs) as [edges|] eqn:Hedges;
    [|discriminate].
  unfold mbind, result_bind in Hsort.
  destruct (for_each _ (input_nodes container nodes inputs) initial_state)
    as [st|] eqn:Hrun; [|discriminate].
  injection Hsort as <-. exists edges, st. split; [done|]. split; [done|].
  destruct (all_edges_spec _ _ _ _ _ Hedges) as [Hsucc _].
  apply (roots_sound edges nodes) in Hrun; [done| | |].
  - intros u s Hs. by apply Hsucc in Hs as [? _].
  - intros r Hr. unfold input_nodes in Hr.
    apply elem_of_cons in Hr as [->|Hr]; [done|].
    apply list_elem_of_fmap in Hr as (nd & -> & Hnd).
    by apply list_elem_of_filter in Hnd as [_ Hnd].
  - apply initial_state_sound.
Qed.

(** X7. Whenever the sort returns a list, on any graph, the list is a
    sub-multiset of the input nodes, no two of its nodes share a name, and
    every node that reads a non-empty tensor whose recorded producer bears
    the name of a listed node is named further down the list (or is called
    [placeholder]). *)
Theorem topological_sort_sound :
  forall (container : Container) (nodes : list Node)
         (inputs outputs : list ValueInfoProto) (l : list Node),
    topological_sort container nodes inputs outputs = Ok l ->
    l ⊆+ nodes /\
    NoDup (n_name <$> l) /\
    forall (i : nat) (a b : Node) (x : string) (p : vertex),
      l !! i = Some a ->
      b ∈ nodes -> x ∈ n_input b -> x <> "" ->
      op_output_map container nodes inputs !! x = Some p ->
      v_name p = n_name a ->
      n_name b = "placeholder" \/
      exists j b', i < j /\ l !! j = Some b' /\ n_name b' = n_name b.
Proof.
  intros container nodes inputs outputs l Hsort.
  apply topological_sort_run in Hsort as (edges & st & Hedges & <- & Hinv).
  destruct (all_edges_spec _ _ _ _ _ Hedges) as [Hsucc _].
  destruct Hinv as [Hsorted Hnodup Hord Hvis _].
  split; [|split; [exact Hnodup|]].
  - apply NoDup_submseteq.
    + by apply NoDup_fmap_1 in Hnodup.
    + intros n Hn. by apply Hsorted.
  - intros i a b x p Hi Hb Hx Hne Hp Hname.
    pose proof (take_drop_middle _ _ _ Hi) as Heq. symmetry in Heq.
    assert (Hbs : b ∈ successors_of edges (n_name a)).
    { apply Hsucc. split; [done|]. exists x. split; [done|].
      split; [done|]. by exists p. }
    destruct (Hord _ _ _ Heq b Hbs) as [Hin|?]; [|by left].
    right. apply list_elem_of_fmap in Hin as (b' & Hbn & Hb').
    apply list_elem_of_lookup in Hb' as [k Hk]. rewrite lookup_drop in Hk.
    exists (S i + k), b'. split; [lia|]. by split.
Qed.

Lemma topological_sort_sound_witness :
  [chain_A; chain_B] ⊆+ chain_nodes /\
  NoDup (n_name <$> [chain_A; chain_B]).
Proof.
  destruct (topological_sort_sound (bare_container []) chain_nodes
              [float_info "x"] [float_info "b"] [chain_A; chain_B])
    as (Hsub & Hnd & _).
  - by vm_compute.
  - by split.
Defined.

(** ** The empty node list *)
(** X9. With no nodes the sort returns the empty list exactly when every
    declared output is a declared input or an initializer. *)
Theorem sort_of_no_nodes :
  forall (container : Container) (inputs outputs : list ValueInfoProto),
    topological_sort container [] inputs outputs = Ok [] <->
    forall y_, y_ ∈ outputs -> vi_name y_ ∈ external_names container inputs.
Proof.
  intros container inputs outputs. split.
  - intros Hsort y Hy. unfold topological_sort, all_edges in Hsort.
    simpl in Hsort.
    destruct (for_each _ outputs ∅) as [e|] eqn:Hout; [|discriminate].
    destruct (for_each_Ok_inv _ _ _ _ Hout y Hy) as (s1 & s2 & Hadd).
    unfold add_output in Hadd.
    destruct (op_output_map container [] inputs !! vi_name y) as [p|] eqn:Hp;
      [|discriminate].
    assert (Hsome : is_Some (op_output_map container [] inputs !! vi_name y))
      by by eexists.
    apply op_output_map_is_Some in Hsome as [?|(nd & Hnd & _)]; [done|].
    by apply elem_of_nil in Hnd.
  - intros Hout.
    assert (Hwf : well_formed container [] inputs outputs).
    { constructor.
      - apply NoDup_nil_2.
      - intros nd Hnd. by apply elem_of_nil in Hnd.
      - intros nd x Hnd. by apply elem_of_nil in Hnd.
      - intros y Hy. left. by apply Hout.
      - intros a b x Ha. by apply elem_of_nil in Ha.
      - intros a x Ha. by apply elem_of_nil in Ha. }
    destruct (all_edges_Ok container [] inputs outputs
                (wf_inputs _ _ _ _ Hwf) (wf_outputs _ _ _ _ Hwf)) as [edges He].
    destruct (sort_from_edges container [] inputs outputs edges Hwf He)
      as (st & Hrun & Hperm & _).
    + apply (ranked_acyclic _ (fun _ => 0)).
      intros a b (Ha & _). by apply elem_of_nil in Ha.
    + intros nd Hnd. by apply elem_of_nil in Hnd.
    + unfold topological_sort. rewrite He. unfold mbind, result_bind.
      rewrite Hrun. f_equal. by apply Permutation_nil_r in Hperm.
Qed.

(** ** The container after unfolding *)

Lemma top_of_update_top (f : Container -> Container) (c : Container) :
  (forall c', parent c' = None -> parent (f c') = None) ->
  top_of (update_top f c) = f (top_of c).
Proof.
  intros Hf. revert c. fix IH 1. intros [[p|] ns i v is_ s]; simpl.
  - apply IH.
  - specialize (Hf (mkContainer None ns i v is_ s) eq_refl).
    destruct (f (mkContainer None ns i v is_ s)) as [par ? ? ? ? ?].
    simpl in Hf. by subst par.
Qed.

Lemma top_of_set_pools_pairs (gc : Pools) (c : Container) :
  node_domain_version_pair_sets (top_of (set_pools gc c))
  = node_domain_version_pair_sets (top_of c).
Proof. by destruct c as [[p|] ns i v is_ s]. Qed.

Lemma update_top_fields (ps : list (string * Z)) (c : Container) :
  nodes (update_top (add_pairs ps) c) = nodes c /\
  c_initializer (update_top (add_pairs ps) c) = c_initializer c /\
  c_value_info (update_top (add_pairs ps) c) = c_value_info c /\
  initializers (update_top (add_pairs ps) c) = initializers c /\
  (is_Some (parent c) ->
   node_domain_version_pair_sets (update_top (add_pairs ps) c)
   = node_domain_version_pair_sets c /\
   is_Some (parent (update_top (add_pairs ps) c))).
Proof.
  destruct c as [[p|] ns i v is_ s]; simpl.
  - repeat split; try done; try (by eexists).
  - repeat split; try done; try (by intros [? ?]).
Qed.

Lemma unfold_one_fst (c : Container) (acc : list ContainerNode)
    (node : string * Model) :
  (unfold_one (c, acc) node).1
  = update_top (add_pairs (opset_pairs node))
      (set_pools (_rename_graph (graph node.2) node.1
                    {| initializer := c_initializer c;
                       value_info := c_value_info c |}).1 c).
Proof. reflexivity. Qed.

Lemma unfold_loop_container (ms : list (string * Model)) (c : Container)
    (acc : list ContainerNode) :
  let c' := (foldl unfold_one (c, acc) ms).1 in
  node_domain_version_pair_sets (top_of c')
  = node_domain_version_pair_sets (top_of c)
    ∪ list_to_set (mjoin (opset_pairs <$> ms)) /\
  (is_Some (parent c) ->
   node_domain_version_pair_sets c' = node_domain_version_pair_sets c) /\
  nodes c' = nodes c /\
  initializers c' = initializers c /\
  c_initializer c'
  = c_initializer c
    ++ mjoin ((fun node =>
                 (_rename_iter (g_initializer (graph node.2)) node.1 false).2)
              <$> ms) /\
  c_value_info c'
  = c_value_info c
    ++ mjoin ((fun node =>
                 (_rename_iter (g_value_info (graph node.2)) node.1 false).2)
              <$> ms).
Proof.
  revert c acc. induction ms as [|node ms IH]; intros c acc.
  - simpl. rewrite !app_nil_r. repeat split; try done. set_solver.
  - change (foldl unfold_one (c, acc) (node :: ms))
      with (foldl unfold_one (unfold_one (c, acc) node) ms).
    pose proof (unfold_one_fst c acc node) as Hc1.
    destruct (unfold_one (c, acc) node) as [c1 acc1]. cbn [fst] in Hc1.
    destruct (IH c1 acc1) as (Hpairs & Hown & Hnodes & Hinits & Hinit & Hvi).
    destruct (update_top_fields (opset_pairs node)
                (set_pools (_rename_graph (graph node.2) node.1
                              {| initializer := c_initializer c;
                                 value_info := c_value_info c |}).1 c))
      as (Hn1 & Hi1 & Hv1 & His1 & Hp1).
    rewrite <- Hc1 in Hn1, Hi1, Hv1, His1, Hp1.
    cbv zeta. split; [|split; [|split; [|split; [|split]]]].
    + rewrite Hpairs, Hc1.
      rewrite top_of_update_top by done.
      change (node_domain_version_pair_sets (add_pairs ?ps ?c'))
        with (node_domain_version_pair_sets c' ∪ list_to_set ps).
      rewrite top_of_set_pools_pairs. simpl. set_solver.
    + intros Hpar. destruct (Hp1 Hpar) as [Heq Hpar1].
      rewrite (Hown Hpar1), Heq. done.
    + by rewrite Hnodes, Hn1.
    + by rewrite Hinits, His1.
    + rewrite Hinit, Hi1. simpl. by rewrite <- app_assoc.
    + rewrite Hvi, Hv1. simpl. by rewrite <- app_assoc.
Qed.

(** ** Model nodes that share a name *)
Lemma dict_set_keys_NoDup {V} (k : string) (v : V) (d : list (string * V)) :
  NoDup (dict_keys d) -> NoDup (dict_keys (dict_set k v d)).
Proof.
  unfold dict_keys. induction d as [|[k0 v0] d IH]; simpl; intros Hnd.
  - apply NoDup_singleton.
  - apply NoDup_cons in Hnd as [Hnin Hnd].
    destruct (decide (k0 = k)) as [->|Hne]; simpl.
    + by apply NoDup_cons.
    + apply NoDup_cons. split; [|by apply IH].
      intros Hin. apply (dict_keys_set k k0 v d) in Hin as [Heq|Hin];
        [by destruct Hne | by apply Hnin].
Qed.

Lemma dict_set_here {V} (k : string) (v : V) (d : list (string * V)) :
  (k, v) ∈ dict_set k v d.
Proof.
  induction d as [|[k0 v0] d IH]; simpl; [apply list_elem_of_here|].
  destruct (decide (k0 = k)); [apply list_elem_of_here|].
  by apply list_elem_of_further.
Qed.

Lemma dict_set_other {V} (k k' : string) (v v' : V) (d : list (string * V)) :
  k' <> k -> (k', v') ∈ d -> (k', v') ∈ dict_set k v d.
Proof.
  intros Hne. induction d as [|[k0 v0] d IH]; simpl;
    [by intros ?%elem_of_nil|].
  intros Hin. apply elem_of_cons in Hin as [[= <- <-]|Hin].
  - rewrite decide_False by done. apply list_elem_of_here.
  - destruct (decide (k0 = k)); apply list_elem_of_further; [done|by apply IH].
Qed.

Lemma model_nodes_of_NoDup (l : list ContainerNode) :
  NoDup (dict_keys (model_nodes_of l)).
Proof.
  induction l as [|cn l IH] using rev_ind; [apply NoDup_nil_2|].
  rewrite model_nodes_of_snoc. destruct cn; [done|].
  by apply dict_set_keys_NoDup.
Qed.

(** X12. The dictionary of model nodes has one entry per name, and the
    model kept for a name is that of the last model node so called: of
    several model nodes sharing a name only the last is expanded. *)
Theorem last_model_node_wins :
  forall (l1 l2 : list ContainerNode) (name : string) (model : Model),
    (forall model', ModelNode name model' ∉ l2) ->
    NoDup (dict_keys (model_nodes_of (l1 ++ ModelNode name model :: l2))) /\
    (name, model) ∈ model_nodes_of (l1 ++ ModelNode name model :: l2) /\
    forall model',
      (name, model') ∈ model_nodes_of (l1 ++ ModelNode name model :: l2) ->
      model' = model.
Proof.
  intros l1 l2 name model Hlast.
  assert (Hin : (name, model) ∈ model_nodes_of (l1 ++ ModelNode name model :: l2)).
  { induction l2 as [|cn l2 IH] using rev_ind.
    - rewrite model_nodes_of_snoc. apply dict_set_here.
    - replace (l1 ++ ModelNode name model :: l2 ++ [cn])
        with ((l1 ++ ModelNode name model :: l2) ++ [cn])
        by (by rewrite <- app_assoc).
      rewrite model_nodes_of_snoc.
      assert (Hl2 : forall model', ModelNode name model' ∉ l2).
      { intros m' Hm'. apply (Hlast m'), elem_of_app. by left. }
      destruct cn as [nd|name' model']; [by apply IH|].
      apply dict_set_other; [|by apply IH].
      intros ->. apply (Hlast model'), elem_of_app. right.
      apply list_elem_of_here. }
  pose proof (model_nodes_of_NoDup (l1 ++ ModelNode name model :: l2)) as Hnd.
  split; [exact Hnd|]. split; [exact Hin|].
  intros model' Hin'.
  apply list_elem_of_lookup in Hin as [i Hi].
  apply list_elem_of_lookup in Hin' as [j Hj].
  assert (i = j) as ->.
  { apply (NoDup_lookup _ i j name Hnd); unfold dict_keys;
      rewrite list_lookup_fmap; [by rewrite Hi | by rewrite Hj]. }
  congruence.
Qed.

Lemma last_model_node_wins_witness :
  (("m", weighted_model) : string * Model)
    ∈ model_nodes_of [ModelNode "m" (mkModel branch_graph []);
                      ModelNode "m" weighted_model;
                      OnnxNode if_node].
Proof.
  destruct (last_model_node_wins [ModelNode "m" (mkModel branch_graph [])]
              [OnnxNode if_node] "m" weighted_model) as (_ & Hin & _).
  - intros model' Hin. apply list_elem_of_singleton in Hin. discriminate.
  - exact Hin.
Defined.

(** ** What the loop over the model nodes leaves in the containers *)

Lemma dict_set_key_order {V} (k : string) (v : V) (d : list (string * V)) :
  dict_keys (dict_set k v d)
  = if decide (k ∈ dict_keys d) then dict_keys d else dict_keys d ++ [k].
Proof.
  unfold dict_keys. induction d as [|[k0 v0] d IH].
  - destruct (decide (k ∈ fst <$> ([] : list (string * V)))) as [Hin|_];
      [by apply elem_of_nil in Hin | done].
  - cbn [dict_set]. destruct (decide (k0 = k)) as [->|Hne].
    + rewrite decide_True; [done|]. apply list_elem_of_here.
    + rewrite fmap_cons, IH. cbn [fst].
      destruct (decide (k ∈ fst <$> d)) as [Hin|Hnin].
      * rewrite decide_True; [done|]. rewrite fmap_cons.
        by apply list_elem_of_further.
      * rewrite decide_False; [done|]. rewrite fmap_cons.
        intros [Heq|Hin]%elem_of_cons; [by destruct Hne | by apply Hnin].
Qed.

Lemma model_nodes_of_key_order (l : list ContainerNode) :
  dict_keys (model_nodes_of l) = first_occurrences (model_node_names l).
Proof.
  induction l as [|cn l IH] using rev_ind; [reflexivity|].
  rewrite model_nodes_of_snoc. unfold model_node_names.
  rewrite omap_app. fold (model_node_names l).
  destruct cn as [nd|name model]; simpl.
  - by rewrite app_nil_r.
  - unfold first_occurrences. rewrite foldl_app. simpl.
    fold (first_occurrences (model_node_names l)).
    by rewrite dict_set_key_order, IH.
Qed.

Lemma dict_set_elem_inv {V} (k k' : string) (v v' : V)
    (d : list (string * V)) :
  NoDup (dict_keys d) ->
  (k', v') ∈ dict_set k v d ->
  (k', v') = (k, v) \/ (k' <> k /\ (k', v') ∈ d).
Proof.
  unfold dict_keys. induction d as [|[k0 v0] d IH]; simpl; intros Hnd Hin.
  - apply list_elem_of_singleton in Hin. by left.
  - apply NoDup_cons in Hnd as [Hnin Hnd].
    destruct (decide (k0 = k)) as [->|Hne].
    + apply elem_of_cons in Hin as [Hin|Hin]; [by left|].
      right. split; [|by apply list_elem_of_further].
      intros ->. apply Hnin.
      apply list_elem_of_fmap. by exists (k, v').
    + apply elem_of_cons in Hin as [Hin|Hin].
      * injection Hin as -> ->. right. split; [done|apply list_elem_of_here].
      * destruct (IH Hnd Hin) as [Heq|[Hk Hd]]; [by left|].
        right. split; [done|]. by apply list_elem_of_further.
Qed.

Lemma model_nodes_of_last (l : list ContainerNode) (name : string)
    (model : Model) :
  (name, model) ∈ model_nodes_of l <-> last_model_node l name model.
Proof.
  unfold last_model_node.
  induction l as [|cn l IH] using rev_ind.
  - split; [by intros ?%elem_of_nil|].
    intros (l1 & l2 & Heq & _). by destruct l1.
  - rewrite model_nodes_of_snoc. split.
    + intros Hin. destruct cn as [nd|name' model'].
      * apply IH in Hin as (l1 & l2 & -> & Hlast).
        exists l1, (l2 ++ [OnnxNode nd]). split; [by rewrite <- app_assoc|].
        intros model' [H|H]%elem_of_app; [by apply (Hlast model')|].
        apply list_elem_of_singleton in H. discriminate.
      * apply dict_set_elem_inv in Hin; [|apply model_nodes_of_NoDup].
        destruct Hin as [Heq|[Hne Hin]].
        -- injection Heq as -> ->. exists l, []. split; [done|].
           by intros model'' ?%elem_of_nil.
        -- apply IH in Hin as (l1 & l2 & -> & Hlast).
           exists l1, (l2 ++ [ModelNode name' model']).
           split; [by rewrite <- app_assoc|].
           intros model'' [H|H]%elem_of_app; [by apply (Hlast model'')|].
           apply list_elem_of_singleton in H. injection H as H _.
           by destruct Hne.
    + intros (l1 & l2 & Heq & Hlast).
      destruct l2 as [|c l2 _] using rev_ind.
      * apply app_inj_tail in Heq as [_ ->]. apply dict_set_here.
      * replace (l1 ++ ModelNode name model :: l2 ++ [c])
          with ((l1 ++ ModelNode name model :: l2) ++ [c]) in Heq
          by (by rewrite <- app_assoc).
        apply app_inj_tail in Heq as [-> ->].
        assert (Hin : (name, model)
                        ∈ model_nodes_of (l1 ++ ModelNode name model :: l2)).
        { apply IH. exists l1, l2. split; [done|].
          intros model' H. apply (Hlast model'), elem_of_app. by left. }
        destruct c as [nd|name' model']; [exact Hin|].
        apply dict_set_other; [|exact Hin].
        intros ->. apply (Hlast model'), elem_of_app. right.
        apply list_elem_of_here.
Qed.

(** X10. After unfolding, the outermost container's set of
    [(domain, version)] pairs is its old set joined with the opset imports
    of the models kept in the [model_nodes] dictionary, that is, of the last
    model node of each name in [container.nodes]: a model node that shares
    its name with a later one contributes nothing. A container that has a
    parent keeps its own set unchanged. *)
Theorem unfold_propagates_opsets :
  forall container : Container,
    node_domain_version_pair_sets (top_of (unfold_model_node container).1)
    = node_domain_version_pair_sets (top_of container)
      ∪ list_to_set (mjoin (opset_pairs <$> model_nodes_of (nodes container)))
    /\
    (forall p : string * Z,
       p ∈ node_domain_version_pair_sets
             (top_of (unfold_model_node container).1) <->
       p ∈ node_domain_version_pair_sets (top_of container) \/
       exists name model opset_,
         last_model_node (nodes container) name model /\
         opset_ ∈ opset_import model /\
         p = (domain opset_, version opset_)) /\
    (is_Some (parent container) ->
     node_domain_version_pair_sets (unfold_model_node container).1
     = node_domain_version_pair_sets container).
Proof.
  intros container. unfold unfold_model_node.
  destruct (unfold_loop_container (model_nodes_of (nodes container)) container
              (filter (fun nd_ => cn_name nd_ ∉ dict_keys (model_nodes_of (nodes container)))
                      (nodes container))) as (H1 & H2 & _).
  split; [exact H1|]. split; [|exact H2].
  intros p. cbv zeta in H1. rewrite H1, elem_of_union, elem_of_list_to_set.
  apply or_iff_compat_l. rewrite list_elem_of_join. split.
  - intros (ps & Hp & Hps).
    apply list_elem_of_fmap in Hps as ([name model] & -> & Hnode).
    apply list_elem_of_fmap in Hp as (opset_ & -> & Ho).
    exists name, model, opset_. split; [by apply model_nodes_of_last | done].
  - intros (name & model & opset_ & Hlast & Ho & ->).
    exists (opset_pairs (name, model)). split.
    + unfold opset_pairs. simpl.
      by apply (list_elem_of_fmap_2 (fun o => (domain o, version o))).
    + apply (list_elem_of_fmap_2 opset_pairs).
      by apply model_nodes_of_last.
Qed.

(** X11. Unfolding appends to the container's initializer and value-info
    lists the renamed copies of those of each entry of the [model_nodes]
    dictionary, in the order of its keys, and does not change
    [container.nodes], which still holds the model nodes. The keys are the
    names of the model nodes in the order of their first occurrence, and the
    entry of a name is the last model node so called. *)
Theorem unfold_extends_container_pools :
  forall container : Container,
    c_initializer (unfold_model_node container).1
    = c_initializer container
      ++ mjoin ((fun node =>
                   (_rename_iter (g_initializer (graph node.2)) node.1 false).2)
                <$> model_nodes_of (nodes container)) /\
    c_value_info (unfold_model_node container).1
    = c_value_info container
      ++ mjoin ((fun node =>
                   (_rename_iter (g_value_info (graph node.2)) node.1 false).2)
                <$> model_nodes_of (nodes container)) /\
    nodes (unfold_model_node container).1 = nodes container /\
    dict_keys (model_nodes_of (nodes container))
    = first_occurrences (model_node_names (nodes container)) /\
    (forall (name : string) (model : Model),
       (name, model) ∈ model_nodes_of (nodes container) <->
       last_model_node (nodes container) name model).
Proof.
  intros container. unfold unfold_model_node.
  destruct (unfold_loop_container (model_nodes_of (nodes container)) container
              (filter (fun nd_ => cn_name nd_ ∉ dict_keys (model_nodes_of (nodes container)))
                      (nodes container))) as (_ & _ & H3 & _ & H5 & H6).
  split; [exact H5|]. split; [exact H6|]. split; [exact H3|].
  split; [apply model_nodes_of_key_order|].
  intros name model. apply model_nodes_of_last.
Qed.

(** ** The merged node list *)

Lemma gather_nodes (models : list Model) :
  (gather models).2
  = mjoin (imap (fun k M =>
                   imap (fun idx_ nd_ => io_rename nd_ (prefix_of k) idx_)
                        (g_node (graph M)))
                models).
Proof.
  induction models as [|M models IH] using rev_ind; [reflexivity|].
  rewrite gather_snoc, imap_app, join_app, <- IH. simpl.
  rewrite Nat.add_0_r, app_nil_r.
  unfold gather_one. by destruct (gather models) as [container nodes].
Qed.

Lemma gather_value_info (models : list Model) :
  value_info (gather models).1
  = mjoin (imap (fun k M =>
                   g_value_info (graph M)
                   ++ (_rename_iter (g_value_info (graph M))
                                    (prefix_of k) false).2)
                models).
Proof.
  induction models as [|M models IH] using rev_ind; [reflexivity|].
  rewrite gather_snoc, imap_app, join_app, <- IH. simpl.
  rewrite Nat.add_0_r, app_nil_r.
  unfold gather_one. destruct (gather models) as [container nodes]. simpl.
  by rewrite <- app_assoc.
Qed.

Lemma rewire_fields (port_mapping : gmap string string) (_n : Node) :
  n_name (rewire port_mapping _n) = n_name _n /\
  n_op_type (rewire port_mapping _n) = n_op_type _n /\
  n_attribute (rewire port_mapping _n) = n_attribute _n.
Proof. unfold rewire. by destruct (existsb _ _). Qed.

Lemma join_models_Ok_inv models io_mapping m :
  join_models models io_mapping = Ok m ->
  exists first final port_mapping,
    models !! 0 = Some first /\
    models !! (length models - 1) = Some final /\
    wire_models models
      (match io_mapping with Some f => f (ports models) | None => ∅ end)
    = Ok port_mapping /\
    m = {| graph :=
             {| g_node := rewire port_mapping <$> (gather models).2;
                g_name := joined_name models;
                g_input := (_rename_iter (g_input (graph first))
                                         (prefix_of 0) false).2;
                g_output := (_rename_iter (g_output (graph final))
                                          (prefix_of (length models - 1))
                                          false).2;
                g_initializer :=
                  _remove_unused_initializers
                    (rewire port_mapping <$> (gather models).2)
                    (initializer (gather models).1) ∅;
                g_value_info := value_info (gather models).1 |};
           opset_import := joined_opset models |}.
Proof.
  unfold join_models, item. intros Hjoin.
  destruct (models !! 0) as [first|] eqn:Hfirst; [|discriminate].
  simpl in Hjoin.
  rewrite (mdl_prefix_lookup models 0 first Hfirst) in Hjoin. simpl in Hjoin.
  destruct (models !! (length models - 1)) as [final|] eqn:Hfinal;
    [|discriminate].
  simpl in Hjoin.
  assert (Hlen : length (mdl_prefix models) = length models).
  { unfold mdl_prefix. by rewrite length_fmap, length_seq. }
  rewrite Hlen, (mdl_prefix_lookup models _ final Hfinal) in Hjoin.
  simpl in Hjoin.
  destruct (wire_models models _) as [pm|] eqn:Hwire; [|discriminate].
  simpl in Hjoin. destruct (gather models) as [container nodes0].
  injection Hjoin as <-. by exists first, final, pm.
Qed.

(** C10. A successful [join_models] returns, as the nodes of the model, the
    merged node list: the nodes of every input model, renamed under that
    model's prefix and rewired through the port mapping. The initializer
    list it hands to the pruning step together with these nodes holds, for
    every input model, each of its initializers under its original name and
    also its copy renamed under that model's prefix; hence an original
    initializer is in the returned model's initializer list exactly when its
    un-prefixed name is an input name of some node of the merged node
    list. *)
Theorem C10_join_pool_keeps_originals :
  forall (models : list Model)
         (io_mapping : option (list ModelPort -> gmap string string))
         (m : Model),
    join_models models io_mapping = Ok m ->
    exists port_mapping : gmap string string,
      wire_models models
        (match io_mapping with Some f => f (ports models) | None => ∅ end)
      = Ok port_mapping /\
      g_node (graph m)
      = rewire port_mapping
          <$> mjoin (imap (fun k M =>
                             imap (fun idx_ nd_ =>
                                     io_rename nd_ (prefix_of k) idx_)
                                  (g_node (graph M)))
                          models) /\
      initializer (gather models).1
      = mjoin (imap (fun k M =>
                       g_initializer (graph M)
                       ++ (_rename_iter (g_initializer (graph M))
                                        (prefix_of k) false).2)
                    models) /\
      g_initializer (graph m)
      = _remove_unused_initializers (g_node (graph m))
                                    (initializer (gather models).1) ∅ /\
      forall (k : nat) (M : Model) (t : TensorProto),
        models !! k = Some M ->
        t ∈ g_initializer (graph M) ->
        t ∈ initializer (gather models).1 /\
        set_name (merge_name (prefix_of k) (t_name t)) t
          ∈ initializer (gather models).1 /\
        (t ∈ g_initializer (graph m) <->
         exists nd_, nd_ ∈ g_node (graph m) /\ t_name t ∈ n_input nd_) /\
        (t ∈ g_initializer (graph m) <->
         exists (j : nat) (Mj : Model) (idx_ : nat) (nd_ : Node),
           models !! j = Some Mj /\
           g_node (graph Mj) !! idx_ = Some nd_ /\
           t_name t
             ∈ n_input (rewire port_mapping
                               (io_rename nd_ (prefix_of j) idx_))).
Proof.
  intros models io_mapping m Hjoin.
  destruct (join_models_Ok_inv _ _ _ Hjoin)
    as (first & final & pm & _ & _ & Hwire & Hm).
  subst m. exists pm. cbn [graph g_node g_initializer].
  split; [exact Hwire|]. split; [by rewrite gather_nodes|].
  split; [apply gather_initializer|]. split; [reflexivity|].
  intros k M t HM Ht.
  assert (Hpool : forall t',
             t' ∈ g_initializer (graph M) ++
                  (_rename_iter (g_initializer (graph M))
                                (prefix_of k) false).2 ->
             t' ∈ initializer (gather models).1).
  { intros t' Ht'. rewrite gather_initializer. apply list_elem_of_join.
    eexists. split; [exact Ht'|]. apply list_elem_of_lookup. exists k.
    by rewrite list_lookup_imap, HM. }
  assert (Horig : t ∈ initializer (gather models).1).
  { apply Hpool, elem_of_app. by left. }
  split; [exact Horig|]. split.
  { apply Hpool, elem_of_app. right. simpl.
    apply list_elem_of_fmap. by exists t. }
  assert (Hiff : t ∈ _remove_unused_initializers
                       (rewire pm <$> (gather models).2)
                       (initializer (gather models).1) ∅ <->
                 exists nd_, nd_ ∈ rewire pm <$> (gather models).2 /\
                             t_name t ∈ n_input nd_).
  { rewrite remove_unused_initializers_elem. split.
    - intros [_ [H|H]]; [exact H | by apply not_elem_of_empty in H].
    - intros H. split; [exact Horig | by left]. }
  split; [exact Hiff|]. rewrite Hiff, gather_nodes. split.
  - intros (nd' & Hnd' & Hin).
    apply list_elem_of_fmap in Hnd' as (nd & Heq & Hnd). subst nd'.
    apply list_elem_of_join in Hnd as (l & Hnd & Hl).
    apply list_elem_of_lookup in Hl as [j Hj].
    rewrite list_lookup_imap in Hj.
    destruct (models !! j) as [Mj|] eqn:HMj; [|discriminate].
    simpl in Hj. injection Hj as <-.
    apply list_elem_of_lookup in Hnd as [idx Hidx].
    rewrite list_lookup_imap in Hidx.
    destruct (g_node (graph Mj) !! idx) as [nd0|] eqn:Hnd0; [|discriminate].
    simpl in Hidx. injection Hidx as <-.
    by exists j, Mj, idx, nd0.
  - intros (j & Mj & idx & nd0 & HMj & Hnd0 & Hin).
    exists (rewire pm (io_rename nd0 (prefix_of j) idx)).
    split; [|exact Hin].
    apply list_elem_of_fmap_2. apply list_elem_of_join.
    exists (imap (fun idx_ nd_ => io_rename nd_ (prefix_of j) idx_)
                 (g_node (graph Mj))).
    split.
    + apply list_elem_of_lookup. exists idx.
      by rewrite list_lookup_imap, Hnd0.
    + apply list_elem_of_lookup. exists j.
      by rewrite list_lookup_imap, HMj.
Qed.

Lemma C10_join_pool_keeps_originals_witness :
  weight ∈ initializer (gather [weighted_model]).1 /\
  {| t_name := "g1_w"; t_data := [1%Z] |}
    ∈ initializer (gather [weighted_model]).1.
Proof.
  destruct (C10_join_pool_keeps_originals [weighted_model] None _ eq_refl)
    as (pm & _ & _ & _ & _ & H).
  destruct (H 0 weighted_model weight eq_refl (list_elem_of_here _ _))
    as (Horig & Hcopy & _).
  split; [exact Horig | exact Hcopy].
Defined.

Lemma gather_field {B} (f : Node -> B) (models : list Model) :
  (forall nd p i, f (io_rename nd p i) = f nd) ->
  f <$> (gather models).2
  = mjoin ((fun M => f <$> g_node (graph M)) <$> models).
Proof.
  intros Hf. rewrite gather_nodes.
  induction models as [|M models IH] using rev_ind; [reflexivity|].
  rewrite imap_app, fmap_app, !join_app, fmap_app, IH. f_equal.
  simpl. rewrite !app_nil_r, fmap_imap.
  rewrite <- (imap_const f). apply imap_ext. intros i nd _. apply Hf.
Qed.

(** X13. [join_models] never touches a node's attributes or operator type,
    and its rewiring changes neither node names nor node outputs: the merged
    nodes carry the attribute lists of the source nodes as they are (so
    subgraphs held in attributes are not renamed). *)
Theorem join_keeps_node_attributes :
  forall (models : list Model)
         (io_mapping : option (list ModelPort -> gmap string string))
         (m : Model),
    join_models models io_mapping = Ok m ->
    n_attribute <$> g_node (graph m)
    = mjoin ((fun M => n_attribute <$> g_node (graph M)) <$> models) /\
    n_op_type <$> g_node (graph m)
    = mjoin ((fun M => n_op_type <$> g_node (graph M)) <$> models) /\
    n_name <$> g_node (graph m) = n_name <$> (gather models).2 /\
    n_output <$> g_node (graph m) = n_output <$> (gather models).2.
Proof.
  intros models io_mapping m Hjoin.
  apply join_models_Ok_inv in Hjoin as (first & final & pm & _ & _ & _ & ->).
  simpl.
  assert (Hfield : forall {B} (f : Node -> B),
             (forall nd, f (rewire pm nd) = f nd) ->
             f <$> (rewire pm <$> (gather models).2) = f <$> (gather models).2).
  { intros B f Hf. rewrite <- list_fmap_compose. apply list_fmap_ext.
    intros i nd _. apply Hf. }
  split; [|split; [|split]].
  - rewrite Hfield by apply rewire_fields. by apply gather_field.
  - rewrite Hfield by apply rewire_fields. by apply gather_field.
  - apply Hfield, rewire_fields.
  - apply Hfield, rewire_output.
Qed.

Lemma join_keeps_node_attributes_witness :
  exists m,
    join_models [weighted_model; weighted_model] None = Ok m /\
    n_op_type <$> g_node (graph m) = ["Mul"; "Mul"].
Proof.
  eexists. split; [reflexivity|].
  destruct (join_keeps_node_attributes [weighted_model; weighted_model] None
              _ eq_refl) as (_ & Hop & _).
  exact Hop.
Defined.

(** ** Default wiring *)
Lemma mdl_prefix_lookup_inv (models : list Model) (i : nat) (p : string) :
  mdl_prefix models !! i = Some p -> p = prefix_of i /\ i < length models.
Proof.
  unfold mdl_prefix. rewrite list_lookup_fmap. intros H.
  destruct (seq 0 (length models) !! i) as [k|] eqn:Hk; [|discriminate].
  apply lookup_seq in Hk as [-> Hlt]. injection H as <-. by split.
Qed.

Lemma item_Ok {A} (l : list A) (i : nat) (a : A) :
  item l i = Ok a <-> l !! i = Some a.
Proof.
  unfold item. destruct (l !! i); split; intros H; try discriminate;
    by injection H as ->.
Qed.

Lemma item_Raise {A} (l : list A) (i : nat) (e : exn) :
  item l i = Raise e -> e = IndexError /\ l !! i = None.
Proof. unfold item. destruct (l !! i); [discriminate|]. by intros [= <-]. Qed.

Lemma wire_input_Raise models _idx pm ix e :
  wire_input models _idx pm ix = Raise e -> e = IndexError.
Proof.
  unfold wire_input.
  destruct (item (mdl_prefix models) (_idx + 1)) as [p_next|e1] eqn:H1; simpl.
  2:{ intros [= <-]. by apply item_Raise in H1 as [? _]. }
  destruct (pm !! merge_name p_next (vi_name ix.2)); [discriminate|].
  destruct (item (mdl_prefix models) _idx) as [p|e2] eqn:H2; simpl.
  2:{ intros [= <-]. by apply item_Raise in H2 as [? _]. }
  destruct (item models _idx) as [m|e3] eqn:H3; simpl.
  2:{ intros [= <-]. by apply item_Raise in H3 as [? _]. }
  destruct (item (g_output (graph m)) ix.1) as [o|e4] eqn:H4; simpl;
    [discriminate|].
  intros [= <-]. by apply item_Raise in H4 as [? _].
Qed.

Lemma wire_input_keys models _idx pm ix pm' :
  wire_input models _idx pm ix = Ok pm' ->
  forall key, is_Some (pm' !! key) ->
    is_Some (pm !! key) \/ key = merge_name (prefix_of (_idx + 1)) (vi_name ix.2).
Proof.
  unfold wire_input.
  destruct (item (mdl_prefix models) (_idx + 1)) as [p_next|] eqn:H1; simpl;
    [|discriminate].
  apply item_Ok, mdl_prefix_lookup_inv in H1 as [-> _].
  destruct (pm !! merge_name (prefix_of (_idx + 1)) (vi_name ix.2)) eqn:Hl.
  { intros [= <-] key Hkey. by left. }
  destruct (item (mdl_prefix models) _idx) as [p|]; simpl; [|discriminate].
  destruct (item models _idx) as [m|]; simpl; [|discriminate].
  destruct (item (g_output (graph m)) ix.1) as [o|]; simpl; [|discriminate].
  intros [= <-] key Hkey.
  destruct (decide (merge_name (prefix_of (_idx + 1)) (vi_name ix.2) = key))
    as [<-|Hne]; [by right|].
  rewrite lookup_insert_ne in Hkey by done. by left.
Qed.

Lemma wire_input_short models _idx pm ix Mi Mn :
  models !! _idx = Some Mi -> models !! (_idx + 1) = Some Mn ->
  pm !! merge_name (prefix_of (_idx + 1)) (vi_name ix.2) = None ->
  length (g_output (graph Mi)) <= ix.1 ->
  wire_input models _idx pm ix = Raise IndexError.
Proof.
  intros HMi HMn Hfresh Hshort. unfold wire_input, item.
  rewrite (mdl_prefix_lookup models _ Mn HMn). simpl. rewrite Hfresh.
  rewrite (mdl_prefix_lookup models _ Mi HMi). simpl. rewrite HMi. simpl.
  by rewrite (lookup_ge_None_2 _ _ Hshort).
Qed.

Lemma input_loop_keys models _idx (ixs : list (nat * ValueInfoProto)) pm pm' :
  for_each (wire_input models _idx) ixs pm = Ok pm' ->
  forall key, is_Some (pm' !! key) ->
    is_Some (pm !! key) \/
    exists ix, ix ∈ ixs /\
               key = merge_name (prefix_of (_idx + 1)) (vi_name ix.2).
Proof.
  revert pm. induction ixs as [|ix ixs IH]; intros pm; simpl.
  - intros [= <-] key Hkey. by left.
  - destruct (wire_input models _idx pm ix) as [pm1|] eqn:Hstep;
      [|discriminate].
    simpl. intros Hrest key Hkey.
    destruct (IH _ Hrest key Hkey) as [Hk|(ix' & Hix' & ->)].
    + destruct (wire_input_keys _ _ _ _ _ Hstep key Hk) as [?| ->];
        [by left|right].
      exists ix. split; [apply list_elem_of_here|done].
    + right. exists ix'. split; [by apply list_elem_of_further|done].
Qed.

Lemma wire_prefix_keys models (js : list nat) pm0 pm :
  for_each (fun pm _idx =>
              m_next ← item models (_idx + 1);
              for_each (wire_input models _idx)
                       (imap pair (g_input (graph m_next))) pm)
           js pm0 = Ok pm ->
  forall key, is_Some (pm !! key) -> is_Some (pm0 !! key) \/ wired_key js key.
Proof.
  revert pm0. induction js as [|j js IH]; intros pm0; simpl.
  - intros [= <-] key Hkey. by left.
  - destruct (item models (j + 1)) as [m_next|]; simpl; [|discriminate].
    destruct (for_each (wire_input models j) _ pm0) as [pm1|] eqn:Hstep;
      [|discriminate].
    simpl. intros Hrest key Hkey.
    destruct (IH _ Hrest key Hkey) as [Hk|(j' & name & Hj' & ->)].
    + destruct (input_loop_keys _ _ _ _ _ Hstep key Hk) as [?|(ix & _ & ->)];
        [by left|right].
      exists j, (vi_name ix.2). split; [apply list_elem_of_here|done].
    + right. exists j', name. split; [by apply list_elem_of_further|done].
Qed.

Lemma wire_models_Raise models pm0 e :
  wire_models models pm0 = Raise e -> e = IndexError.
Proof.
  unfold wire_models. intros H.
  apply for_each_Raise_inv in H as (j & pm & _ & H). cbv beta in H.
  destruct (item models (j + 1)) as [m_next|e1] eqn:H1; simpl in H.
  - apply for_each_Raise_inv in H as (ix & pm1 & _ & H).
    by apply wire_input_Raise in H.
  - assert (e1 = e) as <- by congruence. by apply item_Raise in H1 as [? _].
Qed.

Lemma join_models_Raise models io_mapping e :
  join_models models io_mapping = Raise e -> e = IndexError.
Proof.
  unfold join_models. intros H.
  destruct (item models 0) as [first|e1] eqn:H1; simpl in H.
  2:{ assert (e1 = e) as <- by congruence.
      by apply item_Raise in H1 as [? _]. }
  destruct (item (mdl_prefix models) 0) as [p1|e2] eqn:H2; simpl in H.
  2:{ assert (e2 = e) as <- by congruence.
      by apply item_Raise in H2 as [? _]. }
  destruct (item models (length models - 1)) as [final|e3] eqn:H3; simpl in H.
  2:{ assert (e3 = e) as <- by congruence.
      by apply item_Raise in H3 as [? _]. }
  destruct (item (mdl_prefix models) (length (mdl_prefix models) - 1))
    as [p2|e4] eqn:H4; simpl in H.
  2:{ assert (e4 = e) as <- by congruence.
      by apply item_Raise in H4 as [? _]. }
  destruct (wire_models models _) as [pm|e5] eqn:H5; simpl in H.
  2:{ assert (e5 = e) as <- by congruence. by apply wire_models_Raise in H5. }
  by destruct (gather models).
Qed.

(** X14. [join_models] returns a model, whatever the [io_mapping],
    whenever there is at least one model and each model has at least as many
    declared outputs as its successor has declared inputs. *)
Theorem join_succeeds_when_arities_fit :
  forall (models : list Model)
         (io_mapping : option (list ModelPort -> gmap string string)),
    models <> [] ->
    (forall i Mi Mn,
        models !! i = Some Mi -> models !! (i + 1) = Some Mn ->
        length (g_input (graph Mn)) <= length (g_output (graph Mi))) ->
    exists m, join_models models io_mapping = Ok m.
Proof.
  intros models io_mapping Hne Harity.
  destruct (join_models models io_mapping) as [m|e] eqn:Hjoin; [by exists m|].
  exfalso. unfold join_models in Hjoin.
  assert (Hlen : 0 < length models) by (destruct models; [done|simpl; lia]).
  destruct (lookup_lt_is_Some_2 models 0 Hlen) as [first Hfirst].
  destruct (lookup_lt_is_Some_2 models (length models - 1)) as [final Hfinal];
    [lia|].
  assert (Hpl : length (mdl_prefix models) = length models).
  { unfold mdl_prefix. by rewrite length_fmap, length_seq. }
  unfold item in Hjoin at 1 2 3 4.
  rewrite Hfirst, (mdl_prefix_lookup _ _ _ Hfirst), Hfinal, Hpl,
    (mdl_prefix_lookup _ _ _ Hfinal) in Hjoin. simpl in Hjoin.
  destruct (for_each_Ok_intro
              (fun pm _idx =>
                 m_next ← item models (_idx + 1);
                 for_each (wire_input models _idx)
                          (imap pair (g_input (graph m_next))) pm)
              (seq 0 (length models - 1)))
    with (s := match io_mapping with Some f => f (ports models) | None => ∅ end)
    as [pm Hpm].
  - intros j pm Hj. apply elem_of_seq in Hj as [_ Hj].
    destruct (lookup_lt_is_Some_2 models (j + 1)) as [Mn HMn]; [lia|].
    destruct (lookup_lt_is_Some_2 models j) as [Mi HMi]; [lia|].
    unfold item at 1. rewrite HMn. simpl. apply for_each_Ok_intro.
    intros [k x] pm1 Hkx. apply list_elem_of_lookup in Hkx as [k' Hk'].
    rewrite list_lookup_imap in Hk'.
    destruct (g_input (graph Mn) !! k') as [x'|] eqn:Hx'; [|discriminate].
    injection Hk' as <- <-.
    unfold wire_input, item. rewrite (mdl_prefix_lookup _ _ _ HMn). simpl.
    destruct (pm1 !! _); [by eexists|].
    rewrite (mdl_prefix_lookup _ _ _ HMi). simpl. rewrite HMi. simpl.
    apply lookup_lt_Some in Hx'. specialize (Harity j Mi Mn HMi HMn).
    destruct (lookup_lt_is_Some_2 (g_output (graph Mi)) k') as [o ->]; [lia|].
    by eexists.
  - unfold wire_models in Hjoin. rewrite Hpm in Hjoin. simpl in Hjoin.
    by destruct (gather models).
Qed.

Lemma join_succeeds_when_arities_fit_witness :
  exists m, join_models [weighted_model; weighted_model] None = Ok m.
Proof.
  apply join_succeeds_when_arities_fit; [discriminate|].
  intros [|[|i]] Mi Mn HMi HMn; simpl in *; try discriminate.
  injection HMi as <-. injection HMn as <-. simpl. lia.
Defined.

(** X15. Without an [io_mapping], if some model declares an input at a
    position where its predecessor has no declared output, and no earlier
    input of the same model has the same name, [join_models] raises
    [IndexError]. *)
Theorem join_arity_mismatch_index_error :
  forall (models : list Model) (i k : nat) (Mi Mn : Model)
         (x : ValueInfoProto),
    models !! i = Some Mi -> models !! (i + 1) = Some Mn ->
    g_input (graph Mn) !! k = Some x ->
    length (g_output (graph Mi)) <= k ->
    (forall k' x', k' < k -> g_input (graph Mn) !! k' = Some x' ->
                   vi_name x' <> vi_name x) ->
    join_models models None = Raise IndexError.
Proof.
  intros models i k Mi Mn x HMi HMn Hx Hshort Hfirst.
  destruct (join_models models None) as [m|e] eqn:Hjoin.
  2:{ f_equal. by apply join_models_Raise in Hjoin. }
  exfalso.
  apply join_models_Ok_inv in Hjoin as (_ & _ & pm & _ & _ & Hwire & _).
  unfold wire_models in Hwire.
  assert (Hi : i < length models - 1).
  { apply lookup_lt_Some in HMn. lia. }
  assert (Hseq : seq 0 (length models - 1)
                 = seq 0 i ++ [i] ++ seq (S i) (length models - 1 - S i)).
  { replace (length models - 1) with (i + S (length models - 1 - S i))
      at 1 by lia.
    by rewrite seq_app. }
  rewrite Hseq, for_each_app in Hwire.
  destruct (for_each _ (seq 0 i) ∅) as [pm_i|] eqn:Hbefore; [|discriminate].
  simpl in Hwire.
  rewrite (proj2 (item_Ok models (i + 1) Mn) HMn) in Hwire. simpl in Hwire.
  destruct (for_each (wire_input models i) _ pm_i) as [pm_i'|] eqn:Hloop;
    [|discriminate].
  clear Hwire.
  rewrite <- (take_drop_middle _ _ _ Hx), imap_app, for_each_app in Hloop.
  destruct (for_each (wire_input models i) (imap pair (take k _)) pm_i)
    as [pm_k|] eqn:Hk; [|discriminate].
  simpl in Hloop.
  assert (Hlk : length (take k (g_input (graph Mn))) = k).
  { rewrite length_take. apply lookup_lt_Some in Hx. lia. }
  rewrite Hlk, Nat.add_0_r in Hloop.
  rewrite (wire_input_short models i pm_k (k, x) Mi Mn HMi HMn) in Hloop;
    [discriminate| |done].
  simpl. apply eq_None_not_Some. intros Hsome.
  destruct (input_loop_keys _ _ _ _ _ Hk _ Hsome) as [Hold|(ix & Hix & Heq)].
  - destruct (wire_prefix_keys _ _ _ _ Hbefore _ Hold)
      as [Hempty|(j & name & Hj & Heq)].
    + rewrite lookup_empty in Hempty. by destruct Hempty.
    + apply prefixes_keep_models_apart in Heq as [Heq _].
      apply elem_of_seq in Hj. lia.
  - apply merge_name_inj in Heq.
    apply list_elem_of_lookup in Hix as [k' Hk'].
    rewrite list_lookup_imap in Hk'.
    destruct (take k (g_input (graph Mn)) !! k') as [x'|] eqn:Hx';
      [|discriminate].
    injection Hk' as <-. simpl in Heq.
    apply lookup_lt_Some in Hx' as Hlt. rewrite Hlk in Hlt.
    rewrite lookup_take_lt in Hx' by done.
    by apply (Hfirst k' x' Hlt Hx').
Qed.

Lemma rewire_miss (port_mapping : gmap string string) (_n : Node) :
  (forall _i, _i ∈ n_input _n -> port_mapping !! _i = None) ->
  rewire port_mapping _n = _n.
Proof.
  intros Hmiss. unfold rewire. destruct (existsb _ _) eqn:Hex; [|reflexivity].
  apply existsb_exists in Hex as (_i & Hin & Hdec).
  apply bool_decide_eq_true in Hdec. apply list_elem_of_In in Hin.
  rewrite (Hmiss _i Hin) in Hdec. by destruct Hdec.
Qed.

(** X16. Joining a single model without an [io_mapping] succeeds and is a
    pure renaming under [g1]: no node input is rewired, the graph keeps its
    name, and the pools hold the originals followed by the renamed copies. *)
Theorem join_single_model :
  forall M : Model,
    join_models [M] None
    = Ok {| graph :=
              {| g_node := (_rename_graph (graph M) "g1" (mkPools [] [])).2;
                 g_name := g_name (graph M);
                 g_input := (_rename_iter (g_input (graph M)) "g1" false).2;
                 g_output := (_rename_iter (g_output (graph M)) "g1" false).2;
                 g_initializer :=
                   _remove_unused_initializers
                     (_rename_graph (graph M) "g1" (mkPools [] [])).2
                     (g_initializer (graph M)
                      ++ (_rename_iter (g_initializer (graph M)) "g1" false).2)
                     ∅;
                 g_value_info :=
                   g_value_info (graph M)
                   ++ (_rename_iter (g_value_info (graph M)) "g1" false).2 |};
            opset_import := joined_opset [M] |}.
Proof.
  intros M. unfold join_models, wire_models, gather, mdl_prefix, prefix_of, item.
  simpl. rewrite !pretty_1. simpl.
  assert (Hid : forall l : list Node, rewire ∅ <$> l = l).
  { intros l. rewrite <- (list_fmap_id l) at 2. apply list_fmap_ext.
    intros i nd _. apply rewire_miss. intros _i _. apply lookup_empty. }
  by rewrite Hid.
Qed.

Lemma prefix_of_0 : prefix_of 0 = "g1".
Proof. reflexivity. Qed.

Lemma gather_nodes_first (models : list Model) (M0 : Model) (idx : nat)
    (nd : Node) :
  models !! 0 = Some M0 -> g_node (graph M0) !! idx = Some nd ->
  (gather models).2 !! idx = Some (io_rename nd (prefix_of 0) idx).
Proof.
  intros HM0 Hnd. rewrite gather_nodes.
  destruct models as [|M0' rest]; [discriminate|]. injection HM0 as ->.
  simpl. rewrite lookup_app_l.
  - by rewrite list_lookup_imap, Hnd.
  - rewrite length_imap. by apply lookup_lt_Some in Hnd.
Qed.

(** X17. Under the default wiring the nodes of the first model are only
    renamed: they open the merged node list and none of their inputs is
    rewired. *)
Theorem default_wiring_spares_first_model :
  forall (models : list Model) (m M0 : Model) (idx : nat) (nd : Node),
    join_models models None = Ok m ->
    models !! 0 = Some M0 ->
    g_node (graph M0) !! idx = Some nd ->
    g_node (graph m) !! idx = Some (io_rename nd "g1" idx).
Proof.
  intros models m M0 idx nd Hjoin HM0 Hnd.
  apply join_models_Ok_inv in Hjoin
    as (first & final & pm & _ & _ & Hwire & ->).
  simpl. rewrite list_lookup_fmap, (gather_nodes_first _ _ _ _ HM0 Hnd).
  simpl. f_equal. rewrite <- prefix_of_0.
  apply rewire_miss. intros _i Hi. apply eq_None_not_Some. intros Hsome.
  unfold wire_models in Hwire.
  destruct (wire_prefix_keys _ _ _ _ Hwire _ Hsome)
    as [Hempty|(j & name & _ & Heq)].
  { rewrite lookup_empty in Hempty. by destruct Hempty. }
  simpl in Hi. apply list_elem_of_fmap in Hi as (x & Hx & _).
  destruct (truthy x).
  - rewrite Heq in Hx.
    apply prefixes_keep_models_apart in Hx as [Hj _]. lia.
  - rewrite Heq in Hx. by apply merge_name_nonempty in Hx.
Qed.

Lemma default_wiring_spares_first_model_witness :
  exists m,
    join_models [weighted_model; weighted_model] None = Ok m /\
    g_node (graph m) !! 0
    = Some (io_rename (plain_node "mul" "Mul" ["x"; "w"] ["y"]) "g1" 0).
Proof.
  eexists. split; [reflexivity|].
  by apply (default_wiring_spares_first_model
              [weighted_model; weighted_model] _ weighted_model 0).
Defined.

Lemma join_arity_mismatch_index_error_witness :
  join_models
    [weighted_model;
     mkModel (mkGraph [] "two" [float_info "a"; float_info "b"] [] [] []) []]
    None = Raise IndexError.
Proof.
  apply (join_arity_mismatch_index_error _ 0 1 weighted_model
           (mkModel (mkGraph [] "two" [float_info "a"; float_info "b"] [] [] []) [])
           (float_info "b"));
    [reflexivity | reflexivity | reflexivity | simpl; lia |].
  intros [|k'] x' Hk' Hx'; [|lia]. injection Hx' as <-. discriminate.
Defined.

(** ** Merged opsets and name *)
Lemma foldl_flatten {A B C} (g : A -> B -> A) (h : C -> list B) (a : A)
    (l : list C) :
  foldl (fun acc c => foldl g acc (h c)) a l = foldl g a (mjoin (h <$> l)).
Proof.
  revert a. induction l as [|c l IH]; intros a; simpl; [done|].
  by rewrite foldl_app, IH.
Qed.

Lemma first_seen_unique (all : list OperatorSetIdProto)
    (o o' : OperatorSetIdProto) :
  first_seen all o -> first_seen all o' -> domain o = domain o' -> o = o'.
Proof.
  intros (l1 & l2 & Heq & Hnew) (l1' & l2' & Heq' & Hnew') Hdom.
  assert (Hlen : length l1 = length l1').
  { destruct (Nat.lt_trichotomy (length l1) (length l1')) as [Hlt|[?|Hlt]];
      [|done|]; exfalso.
    - apply Hnew'. rewrite <- Hdom. apply list_elem_of_fmap_2.
      apply list_elem_of_lookup. exists (length l1).
      rewrite <- (lookup_app_l l1' (o' :: l2')) by done.
      rewrite <- Heq', Heq. by rewrite list_lookup_middle.
    - apply Hnew. rewrite Hdom. apply list_elem_of_fmap_2.
      apply list_elem_of_lookup. exists (length l1').
      rewrite <- (lookup_app_l l1 (o :: l2)) by done.
      rewrite <- Heq, Heq'. by rewrite list_lookup_middle. }
  assert (Hmid : all !! length l1 = Some o)
    by (by rewrite Heq, list_lookup_middle).
  rewrite Heq', Hlen, list_lookup_middle in Hmid by done. congruence.
Qed.

Lemma opset_fold_inv (all : list OperatorSetIdProto) :
  let acc := foldl (fun (acc : gset string * list OperatorSetIdProto) _ops =>
                      if decide (domain _ops ∈ acc.1) then acc
                      else (acc.1 ∪ {[domain _ops]}, acc.2 ++ [_ops]))
                   (∅, []) all in
  (forall d, d ∈ acc.1 <-> d ∈ (domain <$> acc.2)) /\
  NoDup (domain <$> acc.2) /\
  (forall o, o ∈ acc.2 -> first_seen all o) /\
  (forall o, o ∈ all -> domain o ∈ (domain <$> acc.2)).
Proof.
  induction all as [|o all IH] using rev_ind.
  - simpl. split; [|split; [|split]].
    + intros d. split; [intros H; by apply not_elem_of_empty in H|].
      intros H. by apply elem_of_nil in H.
    + apply NoDup_nil_2.
    + intros o Ho. by apply elem_of_nil in Ho.
    + intros o Ho. by apply elem_of_nil in Ho.
  - rewrite foldl_app. simpl.
    destruct (foldl _ (∅, []) all) as [seen acc] eqn:Hacc. simpl in IH.
    destruct IH as (Hseen & Hnd & Hfirst & Hcover).
    assert (Hkeep : forall o', first_seen all o' -> first_seen (all ++ [o]) o').
    { intros o' (l1 & l2 & -> & Hnew). exists l1, (l2 ++ [o]).
      split; [by rewrite <- app_assoc|done]. }
    destruct (decide (domain o ∈ seen)) as [Hin|Hnin];
      [rewrite decide_True by done | rewrite decide_False by done]; simpl.
    + split; [done|]. split; [done|]. split; [by auto|].
      intros o' Ho'. apply elem_of_app in Ho' as [?|Ho']; [by apply Hcover|].
      apply list_elem_of_singleton in Ho' as ->. by apply Hseen.
    + split; [|split; [|split]].
      * intros d. rewrite fmap_app, elem_of_app, elem_of_union, Hseen. simpl.
        by rewrite elem_of_singleton, list_elem_of_singleton.
      * rewrite fmap_app. apply NoDup_app. split; [done|]. split.
        -- intros d Hd Hd'. apply list_elem_of_singleton in Hd' as ->.
           by apply Hnin, Hseen.
        -- apply NoDup_singleton.
      * intros o' Ho'. apply elem_of_app in Ho' as [?|Ho']; [by auto|].
        apply list_elem_of_singleton in Ho' as ->.
        exists all, []. split; [done|]. intros Hd. apply Hnin, Hseen.
        apply list_elem_of_fmap in Hd as (o2 & -> & Ho2). by apply Hcover.
      * intros o' Ho'. rewrite fmap_app, elem_of_app.
        apply elem_of_app in Ho' as [?|Ho']; [left; by apply Hcover|].
        apply list_elem_of_singleton in Ho' as ->. right.
        apply list_elem_of_here.
Qed.

(** X18. The merged opset list has no two entries of the same domain, and
    its entries are exactly the opset imports that are the first of their
    domain in model order. *)
Theorem joined_opset_first_per_domain :
  forall models : list Model,
    NoDup (domain <$> joined_opset models) /\
    forall o, o ∈ joined_opset models <-> first_seen (all_opsets models) o.
Proof.
  intros models. unfold joined_opset. rewrite foldl_flatten.
  pose proof (opset_fold_inv (all_opsets models)) as Hinv.
  unfold all_opsets in *. cbv zeta in Hinv.
  destruct Hinv as (_ & Hnd & Hfirst & Hcover).
  split; [exact Hnd|]. intros o. split; [by apply Hfirst|].
  intros Ho. assert (Hin : o ∈ mjoin (opset_import <$> models)).
  { destruct Ho as (l1 & l2 & -> & _). apply elem_of_app. right.
    apply list_elem_of_here. }
  apply Hcover, list_elem_of_fmap in Hin as (o' & Hdom & Ho').
  by rewrite (first_seen_unique _ o o' Ho (Hfirst _ Ho') Hdom).
Qed.

Lemma append_assoc (a b c : string) : (a +:+ b) +:+ c = a +:+ b +:+ c.
Proof.
  induction a as [|ch a IH]; [done|].
  change (String ch ((a +:+ b) +:+ c) = String ch (a +:+ b +:+ c)).
  by rewrite IH.
Qed.

Lemma joined_name_from (acc : string) (models : list Model) :
  acc <> "" ->
  foldl (fun name _mdl =>
           if truthy name then name +:+ "_" +:+ g_name (graph _mdl)
           else g_name (graph _mdl)) acc models
  = String.concat "_" (acc :: ((fun M => g_name (graph M)) <$> models)).
Proof.
  revert acc. induction models as [|M models IH]; intros acc Hacc; [done|].
  simpl foldl. apply truthy_true in Hacc as Ht. rewrite Ht.
  rewrite IH by (destruct acc; [done|discriminate]).
  rewrite fmap_cons. simpl.
  destruct ((fun M => g_name (graph M)) <$> models) as [|n ns]; [done|].
  by rewrite !append_assoc.
Qed.

(** X19. When the first graph has a non-empty name, the merged name is the
    graph names joined by [_]; a leading graph with an empty name is skipped
    without a separator. *)
Theorem joined_name_separator :
  forall (M : Model) (models : list Model),
    (g_name (graph M) <> "" ->
     joined_name (M :: models)
     = String.concat "_" ((fun M => g_name (graph M)) <$> (M :: models))) /\
    (g_name (graph M) = "" ->
     joined_name (M :: models) = joined_name models).
Proof.
  intros M models. unfold joined_name. simpl. split.
  - intros Hne. by apply joined_name_from.
  - by intros ->.
Qed.

Lemma joined_name_separator_witness :
  joined_name [weighted_model; mkModel branch_graph []] = "scale_branch".
Proof.
  destruct (joined_name_separator weighted_model [mkModel branch_graph []])
    as [H _].
  rewrite H; [reflexivity | discriminate].
Defined.

(** ** Cycles and the result *)
(** X8. When no node is called [placeholder] and the sort returns a list,
    no node of that list lies on a cycle of the edges the sort recorded: a
    cycle is either reported or left out of the result altogether. *)
Theorem sorted_nodes_lie_on_no_cycle :
  forall (container : Container) (nodes : list Node)
         (inputs outputs : list ValueInfoProto) (l : list Node),
    topological_sort container nodes inputs outputs = Ok l ->
    (forall nd_, nd_ ∈ nodes -> n_name nd_ <> "placeholder") ->
    forall a, a ∈ l ->
      ~ tc (wired container nodes inputs) (n_name a) (n_name a).
Proof.
  intros container nodes inputs outputs l Hsort Hph.
  apply topological_sort_run in Hsort as (edges & st & Hedges & <- & Hinv).
  destruct (all_edges_spec _ _ _ _ _ Hedges) as [Hsucc _].
  destruct Hinv as [Hsorted Hnodup Hord Hvis _].
  assert (Hstep : forall u w i,
             wired container nodes inputs u w ->
             (n_name <$> sorted_nodes st) !! i = Some u ->
             exists j, i < j /\ (n_name <$> sorted_nodes st) !! j = Some w).
  { intros u w i (b & x & Hb & <- & Hx & Hfeeds) Hi.
    rewrite list_lookup_fmap in Hi.
    destruct (sorted_nodes st !! i) as [a|] eqn:Ha; [|discriminate].
    injection Hi as <-.
    pose proof (take_drop_middle _ _ _ Ha) as Heq. symmetry in Heq.
    assert (Hbs : b ∈ successors_of edges (n_name a)).
    { apply Hsucc. split; [done|]. by exists x. }
    destruct (Hord _ _ _ Heq b Hbs) as [Hin|Hbad];
      [|by destruct (Hph b Hb)].
    apply list_elem_of_lookup in Hin as [k Hk].
    rewrite fmap_drop, lookup_drop in Hk.
    exists (S i + k). split; [lia|done]. }
  assert (Htc : forall u w,
             tc (wired container nodes inputs) u w ->
             forall i, (n_name <$> sorted_nodes st) !! i = Some u ->
             exists j, i < j /\ (n_name <$> sorted_nodes st) !! j = Some w).
  { induction 1 as [u w H|u v w H _ IH]; intros i Hi.
    - by apply (Hstep u w).
    - destruct (Hstep u v i H Hi) as (j & Hij & Hj).
      destruct (IH j Hj) as (k & Hjk & Hk). exists k. split; [lia|done]. }
  intros a Ha Hcyc.
  apply list_elem_of_lookup in Ha as [i Hi].
  assert (Hi' : (n_name <$> sorted_nodes st) !! i = Some (n_name a))
    by (by rewrite list_lookup_fmap, Hi).
  destruct (Htc _ _ Hcyc i Hi') as (j & Hij & Hj).
  pose proof (NoDup_lookup _ i j _ Hnodup Hi' Hj). lia.
Qed.

Lemma sorted_nodes_lie_on_no_cycle_witness :
  ~ tc (wired (bare_container []) chain_nodes [float_info "x"])
       (n_name chain_A) (n_name chain_A).
Proof.
  apply (sorted_nodes_lie_on_no_cycle (bare_container []) chain_nodes
           [float_info "x"] [float_info "b"] [chain_A; chain_B]).
  - by vm_compute.
  - intros nd Hnd. list_cases Hnd; discriminate.
  - apply list_elem_of_here.
Defined.

Lemma prefixes_keep_models_apart_witness :
  0 = 0 /\ "x" = "x".
Proof.
  exact (prefixes_keep_models_apart 0 0 "x" "x" eq_refl).
Defined.

Lemma renaming_preserves_dependencies_witness :
  dep (_rename_graph (mkGraph chain_nodes "chain" [] [] [] []) "m"
                     (mkPools [] [])).2
      (io_rename chain_A "m" 1) (io_rename chain_B "m" 0).
Proof.
  apply (renaming_preserves_dependencies
           (mkGraph chain_nodes "chain" [] [] [] []) "m" (mkPools [] [])
           1 0 chain_A chain_B eq_refl eq_refl).
  split; [apply list_elem_of_further, list_elem_of_here|].
  split; [apply list_elem_of_here|].
  exists "a". split; [discriminate|]. split; apply list_elem_of_here.
Defined.

Lemma unfold_propagates_opsets_witness :
  node_domain_version_pair_sets
    (unfold_model_node
       (mkContainer (Some (mkContainer None [] [] [] [] ∅))
                    [ModelNode "m" weighted_model] [] [] [] ∅)).1
  = ∅.
Proof.
  destruct (unfold_propagates_opsets
              (mkContainer (Some (mkContainer None [] [] [] [] ∅))
                           [ModelNode "m" weighted_model] [] [] [] ∅))
    as (_ & _ & H).
  apply H. by eexists.
Defined.
